(** * hesim: interoperability helpers (utils.h, utils.cpp)

    A shallow embedding of
    - [hesim::detail::list_to_vec] and the [Rcpp::as] converters built on it,
    - [hesim::max_element_pos] and [hesim::unique],
    - the exported row reductions [C_rowmax] and [C_rowmax_index],
    followed by the properties the specification states about them.

    Conventions.  A C++ [double] is a primitive binary64 [float]; [int] is a
    32-bit two's complement integer carried in [Z] with its narrowing written
    out ([to_int]); a thrown C++ exception is the [Throw] case of [result];
    [arma::mat] keeps Armadillo's column-major storage. *)

From Stdlib Require Import String.
From Stdlib Require Import ZArith List Bool Lia Floats.
From Stdlib Require Import Sorting.Sorted Sorting.Permutation.
Import ListNotations.
Local Open Scope nat_scope.

(* ================================================================== *)
(** * Part I: the program                                              *)
(* ================================================================== *)

(** ** Exceptions and results *)

(** The exceptions that can leave the functions below. *)
Inductive exception : Type :=
| length_error (what : string)      (* std::length_error *)
| logic_error (what : string)       (* std::logic_error, Armadillo's size checks *)
| not_compatible (what : string)    (* Rcpp::not_compatible and other converter errors *)
| index_out_of_bounds (what : string).

(** A call either returns a value or throws. *)
Inductive result (A : Type) : Type :=
| Ok (a : A)
| Throw (e : exception).

Arguments Ok {A} a.
Arguments Throw {A} e.

Definition is_ok {A} (r : result A) : bool :=
  match r with Ok _ => true | Throw _ => false end.

(** ** Machine integers *)

Definition INT_MAX : Z := 2147483647.

(** Conversion of a 64-bit signed value ([R_xlen_t], [std::ptrdiff_t]) to
    [int]: the value modulo 2^32, read as two's complement. *)
Definition to_int (z : Z) : Z := ((z + 2147483648) mod 4294967296 - 2147483648)%Z.

(** ** A state and exception monad over the caller's object

    [M S A] is a computation that reads (and could write) an object of type
    [S] owned by the caller, and returns an [A] or throws. *)

Definition M (S A : Type) : Type := S -> result A * S.

Definition ret {S A} (a : A) : M S A := fun s => (Ok a, s).

Definition throw {S A} (e : exception) : M S A := fun s => (Throw e, s).

Definition bind {S A B} (c : M S A) (k : A -> M S B) : M S B :=
  fun s => match c s with
           | (Ok a, s') => k a s'
           | (Throw e, s') => (Throw e, s')
           end.

Definition lift {S A} (r : result A) : M S A := fun s => (r, s).

Notation "x <- c ;; k" := (bind c (fun x => k))
  (at level 61, c at next level, right associativity).

(** ** utils.h: [hesim::detail::list_to_vec] *)

Section ListToVec.

(** [SEXP] is the type of host (R) values, [T2] the element type of the
    vector to build, and [as_T2] is [Rcpp::as<T2>]: it returns the converted
    element or throws. *)
Variable SEXP : Type.
Variable T2 : Type.
Variable as_T2 : SEXP -> result T2.

(** An [Rcpp::List] is a handle on a host list; the state of the
    computation is the content of that host list. *)
Definition host_list : Type := list SEXP.

(** [l.size()], an [R_xlen_t]. *)
Definition List_size : M host_list Z :=
  fun l => (Ok (Z.of_nat (length l)), l).

(** [l[i]]: reads element [i]. *)
Definition List_get (i : Z) : M host_list SEXP :=
  fun l => match nth_error l (Z.to_nat i) with
           | Some x => (Ok x, l)
           | None => (Throw (index_out_of_bounds "List"%string), l)
           end.

(** [v.reserve(n)] with [n] an [int]: [n] is converted to the unsigned
    [size_type], so a negative [n] asks for more than [max_size()]
    elements and [std::length_error] is thrown. *)
Definition reserve (n : Z) : M host_list unit :=
  if (n <? 0)%Z then throw (length_error "vector::reserve"%string) else ret tt.

(** The loop [for (int i = 0; i < n; ++i) v.push_back(Rcpp::as<T2>(l[i]))],
    entered at counter [i] with [k] iterations left. *)
Fixpoint push_back_loop (k : nat) (i : Z) (v : list T2) : M host_list (list T2) :=
  match k with
  | O => ret v
  | S k' =>
      x <- List_get i ;;
      y <- lift (as_T2 x) ;;
      push_back_loop k' (i + 1)%Z (v ++ [y])
  end.

(** [template <typename T1, typename T2> T1 list_to_vec(Rcpp::List l)]. *)
Definition list_to_vec : M host_list (list T2) :=
  sz <- List_size ;;
  let n := to_int sz in
  _ <- reserve n ;;
  push_back_loop (Z.to_nat n) 0%Z [].

(** The custom converters [Rcpp::as<hesim::vecmats>] and its siblings:
    [Rcpp::List l = Rcpp::as<Rcpp::List>(object); return list_to_vec<..>(l);]
    where [as_List] is [Rcpp::as<Rcpp::List>]. *)
Variable as_List : SEXP -> result host_list.

Definition as_vec (object : SEXP) : result (list T2) :=
  match as_List object with
  | Ok l => fst (list_to_vec l)
  | Throw e => Throw e
  end.

End ListToVec.

Arguments host_list SEXP : clear implicits.
Arguments List_size {SEXP} _.
Arguments List_get {SEXP} i _.
Arguments reserve {SEXP} n _.
Arguments push_back_loop {SEXP T2} as_T2 k i v _.
Arguments list_to_vec {SEXP T2} as_T2 _.
Arguments as_vec {SEXP T2} as_T2 as_List object.

(** ** utils.h: [hesim::max_element_pos] and [hesim::unique] *)

Section StdAlgorithms.

(** The element type of the container with its [operator<] and
    [operator==]. *)
Variable T : Type.
Variable ltb : T -> T -> bool.
Variable eqb : T -> T -> bool.

(** [std::max_element(first, last)].  Iterators are offsets from [first].
    The scan keeps the iterator [largest] (with the element it points to)
    and moves it only when [*largest < *first]. *)
Fixpoint max_element_scan (largest : nat) (largest_val : T) (first : nat) (l : list T) : nat :=
  match l with
  | [] => largest
  | x :: l' =>
      if ltb largest_val x
      then max_element_scan first x (S first) l'
      else max_element_scan largest largest_val (S first) l'
  end.

Definition max_element (l : list T) : nat :=
  match l with
  | [] => length l                      (* if (first == last) return last; *)
  | x :: l' => max_element_scan 0 x 1 l'
  end.

(** [inline int max_element_pos(InputIt first, InputIt last)]:
    [std::distance(first, it)] is a [ptrdiff_t], returned as [int]. *)
Definition max_element_pos (l : list T) : Z :=
  to_int (Z.of_nat (max_element l)).

(** [std::sort(first, last)]: the standard fixes the result as the range's
    elements in non-descending order of [operator<], not the algorithm; the
    model is insertion sort. *)
Fixpoint sort_insert (x : T) (l : list T) : list T :=
  match l with
  | [] => [x]
  | y :: l' => if ltb y x then y :: sort_insert x l' else x :: l
  end.

Fixpoint std_sort (l : list T) : list T :=
  match l with
  | [] => []
  | x :: l' => sort_insert x (std_sort l')
  end.

(** [std::unique(first, last)] followed by [erase] of the tail: of every
    run of consecutive elements equal under [operator==], the first one is
    kept. [prev] is the last element kept. *)
Fixpoint unique_scan (prev : T) (l : list T) : list T :=
  match l with
  | [] => []
  | x :: l' => if eqb prev x then unique_scan prev l' else x :: unique_scan x l'
  end.

Definition std_unique (l : list T) : list T :=
  match l with
  | [] => []
  | x :: l' => x :: unique_scan x l'
  end.

(** [template <typename T> inline void unique(std::vector<T> &v)]: the
    result is the content of [v] after the call. *)
Definition unique (v : list T) : list T :=
  std_unique (std_sort v).

End StdAlgorithms.

Arguments max_element_scan {T} ltb largest largest_val first l.
Arguments max_element {T} ltb l.
Arguments max_element_pos {T} ltb l.
Arguments sort_insert {T} ltb x l.
Arguments std_sort {T} ltb l.
Arguments unique_scan {T} eqb prev l.
Arguments std_unique {T} eqb l.
Arguments unique {T} ltb eqb v.

(** ** utils.h: [hesim::add_constant] *)

Section AddConstant.

(** The element type of the vector with the two implicit conversions the
    call performs: [T] to [double] for the argument of [std::plus<double>],
    and [double] back to [T] for the assignment through the output
    iterator. *)
Variable T : Type.
Variable to_double : T -> float.
Variable of_double : float -> T.

(** [template <typename T> inline void add_constant(std::vector<T> &v,
    double value)]: [std::transform] over [v] into [v] with
    [std::bind2nd(std::plus<double>(), value)], so every element [x] becomes
    [x + value], computed in [double]. The result is the content of [v]
    after the call. *)
Definition add_constant (v : list T) (value : float) : list T :=
  map (fun x => of_double (to_double x + value)%float) v.

End AddConstant.

Arguments add_constant {T} to_double of_double v value.

(** [add_constant] on a [std::vector<double>]: both conversions are the
    identity. *)
Definition add_constant_double (v : list float) (value : float) : list float :=
  add_constant (fun x => x) (fun x => x) v value.

(** ** Armadillo: [arma::mat], [arma::max(X, 1)], [arma::index_max(X, 1)]

    Armadillo is a library the repository links against; none of it is among
    the repository's files. *)

(** [zip_with f a b]: the element-wise pass of a loop over two arrays of the
    same length. *)
Fixpoint zip_with {A B C : Type} (f : A -> B -> C) (a : list A) (b : list B) : list C :=
  match a, b with
  | x :: a', y :: b' => f x y :: zip_with f a' b'
  | _, _ => []
  end.

(** Modelled from the spec: [arma::Mat<double>], declared by Armadillo; the
    specification's matrix, "a 2D array of floating-point values". It holds
    [n_rows], [n_cols] and the elements in column-major order, element
    [(row, col)] at [mem[row + col * n_rows]]. *)
Record mat : Type := Mat {
  n_rows : nat;
  n_cols : nat;
  mem : list float
}.

(** Modelled from the spec: the invariant of [arma::Mat],
    [n_elem = n_rows * n_cols]. *)
Definition mat_wf (x : mat) : Prop :=
  length (mem x) = n_rows x * n_cols x.

(** Modelled from the spec: [X.at(row, col)] of [arma::Mat]. *)
Definition at_ (x : mat) (row col : nat) : float :=
  nth (row + col * n_rows x) (mem x) 0%float.

(** Modelled from the spec: [X.colptr(col)] of [arma::Mat], read over
    [n_rows] elements. *)
Definition colptr (x : mat) (col : nat) : list float :=
  firstn (n_rows x) (skipn (col * n_rows x) (mem x)).

(** The elements of row [row], left to right. *)
Definition row_of (x : mat) (row : nat) : list float :=
  map (at_ x row) (seq 0 (n_cols x)).

(** The elements of row [row] after the first column. *)
Definition row_tail (x : mat) (row : nat) : list float :=
  map (at_ x row) (seq 1 (n_cols x - 1)).

(** Modelled from the spec: one step of [arma::max(X, 1)] on one row,
    [if (col_val > out_mem[row]) out_mem[row] = col_val;]. *)
Definition max_update (out_val col_val : float) : float :=
  if (out_val <? col_val)%float then col_val else out_val.

(** Modelled from the spec: the pass of [arma::max(X, 1)] over one column,
    all rows. *)
Definition op_max_col (out_mem col_mem : list float) : list float :=
  zip_with max_update out_mem col_mem.

(** Modelled from the spec: the column loop of [arma::max(X, 1)],
    [for (uword col = 1; col < X_n_cols; ++col)], entered at [col] with [k]
    columns left. *)
Fixpoint op_max_loop (x : mat) (k col : nat) (out_mem : list float) : list float :=
  match k with
  | O => out_mem
  | S k' => op_max_loop x k' (S col) (op_max_col out_mem (colptr x col))
  end.

(** Modelled from the spec: sizing the result of an Armadillo row
    reduction, "the underlying library's documented behavior" on degenerate
    input. The result has [X_n_rows] rows and one column, none when [X] has
    no column; a column vector cannot take the size [R x 0] with [R > 0]
    ([Mat::init]), and the size [0 x 0] becomes [0 x 1]. *)
Definition col_set_size {A : Type} (X_n_rows X_n_cols : nat) (k : result (list A)) : result (list A) :=
  if (X_n_cols =? 0) then
    if (X_n_rows =? 0) then Ok []
    else Throw (logic_error "Mat::init(): requested size is not compatible with column vector layout"%string)
  else k.

(** Modelled from the spec: [arma::max(X, 1)] is Armadillo's routine and not
    part of this repository; section 4.2 fixes it as one value per row, each
    the maximum found in that row. The model follows the library's
    algorithm: the output starts as column 0 and every further column is
    compared into it with [>]. *)
Definition arma_max_dim1 (x : mat) : result (list float) :=
  col_set_size (n_rows x) (n_cols x)
    (Ok (op_max_loop x (n_cols x - 1) 1 (colptr x 0))).

(** Modelled from the spec: one step of [arma::index_max(X, 1)] on one row.
    [tmp_mem[row]] (the running maximum) and [out_mem[row]] (its column) are
    kept side by side:
    [if (max_val < col_val) { max_val = col_val; out_mem[row] = col; }]. *)
Definition index_max_update (col : nat) (cur : float * nat) (col_val : float) : float * nat :=
  if (fst cur <? col_val)%float then (col_val, col) else cur.

(** Modelled from the spec: the pass of [arma::index_max(X, 1)] over one
    column, all rows. *)
Definition op_index_max_col (col : nat) (st : list (float * nat)) (col_mem : list float)
  : list (float * nat) :=
  zip_with (index_max_update col) st col_mem.

(** Modelled from the spec: the column loop of [arma::index_max(X, 1)]. *)
Fixpoint op_index_max_loop (x : mat) (k col : nat) (st : list (float * nat))
  : list (float * nat) :=
  match k with
  | O => st
  | S k' => op_index_max_loop x k' (S col) (op_index_max_col col st (colptr x col))
  end.

(** Modelled from the spec: [arma::index_max(X, 1)] is Armadillo's routine
    and not part of this repository; section 4.3 fixes it as one column index
    per row, the position of that row's maximum, ties as the library has
    them. The model follows the library's algorithm: indices start at 0,
    the running maxima at column 0, and a later column replaces the index
    only when its value is strictly larger. *)
Definition arma_index_max_dim1 (x : mat) : result (list nat) :=
  col_set_size (n_rows x) (n_cols x)
    (Ok (map snd (op_index_max_loop x (n_cols x - 1) 1
                    (map (fun v => (v, 0)) (colptr x 0))))).

(** ** utils.cpp *)

(** The bodies of the two exported functions, over the routine they call:
    [arma_max_1] stands for [X |-> arma::max(X, 1)] and [arma_index_max_1]
    for [X |-> arma::index_max(X, 1)], whatever these do.

    [arma::colvec C_rowmax(arma::mat x) { return arma::max(x, 1); }] *)
Definition C_rowmax_calling (arma_max_1 : mat -> result (list float)) (x : mat)
  : result (list float) :=
  arma_max_1 x.

(** [arma::ucolvec C_rowmax_index(arma::mat x) { return arma::index_max(x,1); }] *)
Definition C_rowmax_index_calling (arma_index_max_1 : mat -> result (list nat)) (x : mat)
  : result (list nat) :=
  arma_index_max_1 x.

(** The exported functions, linked against the model of Armadillo. *)
Definition C_rowmax (x : mat) : result (list float) :=
  C_rowmax_calling arma_max_dim1 x.

Definition C_rowmax_index (x : mat) : result (list nat) :=
  C_rowmax_index_calling arma_index_max_dim1 x.

(** The matrix of the specification's example, [[1,5,3],[9,2,2]]. *)
Definition example_matrix : mat :=
  Mat 2 3 [1; 9; 5; 2; 3; 2]%float.

(** ** Notions the specification uses *)

(** No element of the row is a NaN. *)
Definition no_nan (l : list float) : Prop :=
  forall e, In e l -> is_nan e = false.

(** [v] is the maximum of the row: an element of the row that every element
    of the row is below or equal to. *)
Definition row_maximum (v : float) (l : list float) : Prop :=
  In v l /\ forall e, In e l -> (e <=? v)%float = true.

(** The scans [op_max] and [op_index_max] perform on one row, from running
    value [acc] (found at column [idx]) over the columns [col, col+1, ...]. *)
Definition row_scan_max (acc : float) (l : list float) : float :=
  fold_left max_update l acc.

Fixpoint row_scan_index (col : nat) (cur : float * nat) (l : list float) : float * nat :=
  match l with
  | [] => cur
  | c :: l' => row_scan_index (S col) (index_max_update col cur c) l'
  end.

(** The outcome of converting the elements of [l] one after the other, as
    a function of the list: the conversions in order, or the exception of
    the first element that does not convert. *)
Fixpoint convert_all {SEXP T2 : Type} (conv : SEXP -> result T2) (l : list SEXP)
  : result (list T2) :=
  match l with
  | [] => Ok []
  | x :: l' =>
      match conv x with
      | Throw e => Throw e
      | Ok y =>
          match convert_all conv l' with
          | Throw e => Throw e
          | Ok ys => Ok (y :: ys)
          end
      end
  end.

(** ** Host values to run the converters on

    Rcpp's [SEXP] and its converters are not among the repository's files;
    [list_to_vec] and its properties are stated for any type of host values
    and any converters. The values below instantiate them. *)

(** Modelled from the spec: Rcpp's host values, "a generic,
    dynamically-typed ordered collection" and what it may hold: nothing, a
    numeric matrix, text values, or a list of host values. *)
#[local] Set Warnings "-register-all".
Inductive rvalue : Type :=
| RNull
| RNumericMatrix (m : mat)
| RCharacter (s : list string)
| RList (l : list rvalue).

(** Modelled from the spec: [Rcpp::as<arma::mat>]; "any element failing the
    expected type contract propagates a host-level type error". *)
Definition as_mat (v : rvalue) : result mat :=
  match v with
  | RNumericMatrix m => Ok m
  | _ => Throw (not_compatible "not a matrix"%string)
  end.

(** Modelled from the spec: [Rcpp::as<Rcpp::List>]. *)
Definition as_Rcpp_List (v : rvalue) : result (list rvalue) :=
  match v with
  | RList l => Ok l
  | _ => Throw (not_compatible "not a list"%string)
  end.

(** Modelled from the spec: [Rcpp::as<std::vector<std::string> >], the
    converter of "ordered sequences of text values". *)
Definition as_vecstrings (v : rvalue) : result (list string) :=
  match v with
  | RCharacter s => Ok s
  | _ => Throw (not_compatible "not a character vector"%string)
  end.

(** The container types of utils.h. *)
Definition vecmats : Type := list mat.
Definition vecmats_2d : Type := list vecmats.
Definition vecmats_3d : Type := list vecmats_2d.
Definition vecstrings : Type := list string.
Definition vecstrings_2d : Type := list vecstrings.

(** Modelled from the spec: Rcpp's own [Rcpp::as<std::vector<arma::mat> >],
    the primary template of [Rcpp::as] at [hesim::vecmats]; a host list is
    converted element by element, all or nothing. *)
Definition Rcpp_as_vecmats (v : rvalue) : result vecmats :=
  match as_Rcpp_List v with
  | Ok l => convert_all as_mat l
  | Throw e => Throw e
  end.

(** The converters of utils.h, each [list_to_vec] at the converter of its
    element type.

    [inline hesim::vecmats as(SEXP object)] (line 88) is an overload of
    [Rcpp::as] that is not a template: a call [Rcpp::as<hesim::vecmats>(..)]
    names a template and does not select it. *)
Definition as_vecmats : rvalue -> result vecmats :=
  as_vec as_mat as_Rcpp_List.

(** [template <> Rcpp::as<hesim::vecmats_2d>]: the elements go through
    [Rcpp::as<hesim::vecmats>], Rcpp's own converter. *)
Definition as_vecmats_2d : rvalue -> result vecmats_2d :=
  as_vec Rcpp_as_vecmats as_Rcpp_List.

(** [template <> Rcpp::as<hesim::vecmats_3d>]: the elements go through
    [Rcpp::as<hesim::vecmats_2d>], the specialisation above. *)
Definition as_vecmats_3d : rvalue -> result vecmats_3d :=
  as_vec as_vecmats_2d as_Rcpp_List.

(** [template <> Rcpp::as<hesim::vecstrings_2d>]: the elements go through
    [Rcpp::as<hesim::vecstrings>], Rcpp's own converter. *)
Definition as_vecstrings_2d : rvalue -> result vecstrings_2d :=
  as_vec as_vecstrings as_Rcpp_List.

(** [v] converts element by element to [ys] under the converter [conv]. *)
Definition converts {SEXP T2 : Type} (conv : SEXP -> result T2)
  (l : list SEXP) (ys : list T2) : Prop :=
  Forall2 (fun x y => conv x = Ok y) l ys.

(** A host list of [n] copies of the value [x], [n] given as a 64-bit
    length. *)
Definition host_list_of (x : rvalue) (n : Z) : list rvalue :=
  repeat x (Z.to_nat n).

(** A range of [n] zeros followed by a single 1, [n] given as a 64-bit
    length. *)
Definition zeros_then_one (n : Z) : list Z :=
  repeat 0%Z (Z.to_nat n) ++ [1%Z].

(** The laws [std::max_element] and [std::sort] ask of [operator<]: a strict
    weak ordering. *)
Record strict_weak_order {T : Type} (ltb : T -> T -> bool) : Prop := {
  swo_irrefl : forall a, ltb a a = false;
  swo_trans : forall a b c, ltb a b = true -> ltb b c = true -> ltb a c = true;
  swo_cotrans : forall a b c, ltb a c = true -> ltb a b = true \/ ltb b c = true
}.

(** [operator<] is a strict total order and [operator==] is equality, as for
    the integer and string vectors [unique] is called on. *)
Record total_order {T : Type} (ltb eqb : T -> T -> bool) : Prop := {
  to_irrefl : forall a, ltb a a = false;
  to_trans : forall a b c, ltb a b = true -> ltb b c = true -> ltb a c = true;
  to_total : forall a b, ltb a b = false -> ltb b a = false -> a = b;
  to_eqb : forall a b, eqb a b = true <-> a = b
}.

(** The state of the index scan after the columns [pre]: the running
    maximum [tmp] sits at column [idx], nothing seen exceeds it, nothing
    before [idx] equals it, and a NaN can only be the very first element. *)
Record scan_inv (pre : list float) (tmp : float) (idx : nat) : Prop := {
  inv_idx : idx < length pre;
  inv_val : nth idx pre 0%float = tmp;
  inv_max : forall j, j < length pre -> (tmp <? nth j pre 0)%float = false;
  inv_first : forall j, j < idx -> (nth j pre 0 =? tmp)%float = false;
  inv_nan : is_nan tmp = true -> idx = 0
}.

(** The state of [std::max_element] after the elements [pre]: [largest]
    points at an element nothing seen exceeds and everything before it is
    strictly below. [d] is the default of [nth]. *)
Record largest_inv {T : Type} (ltb : T -> T -> bool) (d : T)
  (pre : list T) (largest : nat) (largest_val : T) : Prop := {
  li_bound : largest < length pre;
  li_val : nth largest pre d = largest_val;
  li_max : forall j, j < length pre -> ltb largest_val (nth j pre d) = false;
  li_first : forall j, j < largest -> ltb (nth j pre d) largest_val = true
}.

(** Ascending and strictly ascending neighbours under [operator<]. *)
Definition ascending {T : Type} (ltb : T -> T -> bool) (a b : T) : Prop :=
  ltb b a = false.

Definition strictly_ascending {T : Type} (ltb : T -> T -> bool) (a b : T) : Prop :=
  ltb a b = true.

(** [v] followed by the elements of a successful outcome. *)
Definition append_to {T2 : Type} (v : list T2) (r : result (list T2)) : result (list T2) :=
  match r with
  | Ok ys => Ok (v ++ ys)
  | Throw e => Throw e
  end.

(** What [std::sort] and [std::unique] ask of the operators, asked of the
    elements that satisfy [P] only: [operator<] is a strict weak ordering
    there and [operator==] is its equivalence. With [P] the elements of a
    vector, the integer and string vectors meet it, and so does every vector
    of doubles that holds no NaN. *)
Record weak_order_on {T : Type} (ltb eqb : T -> T -> bool) (P : T -> Prop) : Prop := {
  wo_irrefl : forall a, P a -> ltb a a = false;
  wo_trans : forall a b c, P a -> P b -> P c ->
    ltb a b = true -> ltb b c = true -> ltb a c = true;
  wo_cotrans : forall a b c, P a -> P b -> P c ->
    ltb a c = true -> ltb a b = true \/ ltb b c = true;
  wo_eqb : forall a b, P a -> P b ->
    (eqb a b = true <-> ltb a b = false /\ ltb b a = false)
}.

(** What is said of the vector [u] that [unique] leaves of [v]: it is in
    ascending order, no two adjacent elements are [==], no two elements at
    all are [==], each of its elements is an element of [v], and every
    element of [v] is [==] to one of its elements. *)
Record unique_post {T : Type} (ltb eqb : T -> T -> bool) (v u : list T) : Prop := {
  up_sorted : StronglySorted (ascending ltb) u;
  up_adjacent : forall pre a b post, u = pre ++ a :: b :: post -> eqb a b = false;
  up_distinct : ForallOrdPairs (fun a b => eqb a b = false) u;
  up_sound : forall y, In y u -> In y v;
  up_complete : forall x, In x v -> exists y, In y u /\ eqb x y = true
}.

(* ================================================================== *)
(** * Part II: properties                                              *)
(* ================================================================== *)

(** ** The order of binary64 values *)

Module FloatOrder.

Ltac cmp_cases :=
  repeat match goal with
    | |- context [Z.compare ?a ?b] => destruct (Z.compare_spec a b)
    | |- context [Pos.compare ?a ?b] => destruct (Pos.compare_spec a b)
    | H : context [Z.compare ?a ?b] |- _ => destruct (Z.compare_spec a b)
    | H : context [Pos.compare ?a ?b] |- _ => destruct (Pos.compare_spec a b)
    end.

Ltac sf_cases f g h :=
  unfold SFltb, SFleb, SFeqb, SFcompare;
  destruct f as [[|]|[|]| |[|] ? ?], g as [[|]|[|]| |[|] ? ?], h as [[|]|[|]| |[|] ? ?];
  simpl; try discriminate; try reflexivity;
  change (Pos.compare_cont Eq) with Pos.compare;
  intros; cmp_cases; simpl in *; try discriminate; try reflexivity;
  subst; try lia.

Lemma SFltb_irrefl f : SFltb f f = false.
Proof.
  unfold SFltb, SFcompare.
  destruct f as [[|]|[|]| |[|] m e]; try reflexivity;
    rewrite Z.compare_refl; change (Pos.compare_cont Eq m m) with (m ?= m)%positive;
    rewrite Pos.compare_refl; reflexivity.
Qed.

Lemma SFltb_trans f g h :
  SFltb f g = true -> SFltb g h = true -> SFltb f h = true.
Proof. sf_cases f g h. Qed.

Lemma SFltb_eqb_r f g h :
  SFltb f h = true -> SFeqb g h = true -> SFltb f g = true.
Proof. sf_cases f g h. Qed.

Lemma SFltb_defined_r f g : SFltb f g = true -> SFeqb g g = true.
Proof.
  unfold SFltb, SFeqb, SFcompare.
  destruct f as [[|]|[|]| |[|] m0 e0], g as [[|]|[|]| |[|] m e];
    simpl; try discriminate; try reflexivity; intros _;
    rewrite Z.compare_refl; change (Pos.compare_cont Eq m m) with (m ?= m)%positive;
    rewrite Pos.compare_refl; reflexivity.
Qed.

Lemma SFeqb_defined_l f g : SFeqb f g = true -> SFeqb f f = true.
Proof.
  unfold SFeqb, SFcompare.
  destruct f as [[|]|[|]| |[|] m e], g as [[|]|[|]| |[|] m' e'];
    simpl; try discriminate; try reflexivity; intros _;
    rewrite Z.compare_refl; change (Pos.compare_cont Eq m m) with (m ?= m)%positive;
    rewrite Pos.compare_refl; reflexivity.
Qed.

Lemma SFleb_total f g :
  SFeqb f f = true -> SFeqb g g = true -> SFltb f g = false -> SFleb g f = true.
Proof.
  unfold SFltb, SFleb, SFeqb, SFcompare.
  destruct f as [[|]|[|]| |[|] ? ?], g as [[|]|[|]| |[|] ? ?];
    simpl; try discriminate; try reflexivity;
    change (Pos.compare_cont Eq) with Pos.compare;
    intros _ _; cmp_cases; simpl in *; try discriminate; try reflexivity;
    subst; try lia.
Qed.

Local Open Scope float_scope.

Lemma ltb_irrefl (a : float) : (a <? a) = false.
Proof. rewrite ltb_spec. apply SFltb_irrefl. Qed.

Lemma ltb_trans (a b c : float) :
  (a <? b) = true -> (b <? c) = true -> (a <? c) = true.
Proof. rewrite !ltb_spec. apply SFltb_trans. Qed.

(** [<] respects [==] on its right-hand side. *)
Lemma ltb_eqb_r (a b c : float) :
  (a <? c) = true -> (b =? c) = true -> (a <? b) = true.
Proof. rewrite !ltb_spec, eqb_spec. apply SFltb_eqb_r. Qed.

(** Whatever is above something is not a NaN. *)
Lemma ltb_not_nan_r (a b : float) : (a <? b) = true -> is_nan b = false.
Proof.
  unfold is_nan. rewrite ltb_spec, eqb_spec. intros H.
  rewrite (SFltb_defined_r _ _ H). reflexivity.
Qed.

(** Away from NaN the order is total. *)
Lemma leb_total (a b : float) :
  is_nan a = false -> is_nan b = false -> (a <? b) = false -> (b <=? a) = true.
Proof.
  unfold is_nan. rewrite ltb_spec, leb_spec, !eqb_spec. intros Ha Hb.
  apply negb_false_iff in Ha, Hb. now apply SFleb_total.
Qed.

Lemma eqb_not_nan_l (a b : float) : (a =? b) = true -> is_nan a = false.
Proof.
  unfold is_nan. rewrite !eqb_spec. intros H.
  rewrite (SFeqb_defined_l _ _ H). reflexivity.
Qed.

End FloatOrder.

(** ** Element-wise passes *)

Lemma zip_with_length {A B C} (f : A -> B -> C) (a : list A) (b : list B) :
  length a = length b -> length (zip_with f a b) = length a.
Proof.
  revert b; induction a as [|u a IH]; intros [|w b] H; simpl in *;
    try reflexivity; try discriminate.
  f_equal. apply IH. now injection H.
Qed.

Lemma zip_with_nth {A B C} (f : A -> B -> C) (a : list A) (b : list B) i da db dc :
  i < length a -> length a = length b ->
  nth i (zip_with f a b) dc = f (nth i a da) (nth i b db).
Proof.
  revert b i; induction a as [|u a IH]; intros [|w b] [|i] Hi H; simpl in *;
    try lia; try discriminate; try reflexivity.
  apply IH; lia.
Qed.

(** ** One row: what the two scans compute *)

Section RowScan.

Local Open Scope float_scope.
Import FloatOrder.

Lemma scan_inv_init (a : float) : scan_inv [a] a 0.
Proof.
  split; simpl; try lia; try reflexivity.
  intros [|[|j]] Hj; try (simpl in Hj; lia). simpl. apply ltb_irrefl.
Qed.

Lemma scan_inv_step pre tmp idx c :
  scan_inv pre tmp idx ->
  scan_inv (pre ++ [c])
           (fst (index_max_update (length pre) (tmp, idx) c))
           (snd (index_max_update (length pre) (tmp, idx) c)).
Proof.
  intros [Hi Hv Hm Hf Hn]. unfold index_max_update. cbn [fst].
  destruct (tmp <? c) eqn:E; simpl.
  - (* the column replaces the maximum *)
    split.
    + rewrite length_app. simpl. lia.
    + rewrite app_nth2, Nat.sub_diag by lia. reflexivity.
    + intros j Hj. rewrite length_app in Hj. simpl in Hj.
      destruct (Nat.eq_dec j (length pre)) as [->|Hne].
      * rewrite app_nth2, Nat.sub_diag by lia. simpl. apply ltb_irrefl.
      * rewrite app_nth1 by lia.
        destruct (c <? nth j pre 0) eqn:E'; [|reflexivity].
        assert (Hj' : (j < length pre)%nat) by lia.
        pose proof (ltb_trans _ _ _ E E') as Hlt.
        rewrite (Hm j Hj') in Hlt. discriminate.
    + intros j Hj. rewrite app_nth1 by lia.
      destruct (nth j pre 0 =? c) eqn:E'; [|reflexivity].
      pose proof (ltb_eqb_r _ _ _ E E') as Hlt.
      rewrite (Hm j) in Hlt by lia. discriminate.
    + intros Hnan. rewrite (ltb_not_nan_r _ _ E) in Hnan. discriminate.
  - (* the maximum stays *)
    split.
    + rewrite length_app. simpl. lia.
    + rewrite app_nth1 by lia. exact Hv.
    + intros j Hj. rewrite length_app in Hj. simpl in Hj.
      destruct (Nat.eq_dec j (length pre)) as [->|Hne].
      * rewrite app_nth2, Nat.sub_diag by lia. exact E.
      * rewrite app_nth1 by lia. apply Hm. lia.
    + intros j Hj. rewrite app_nth1 by lia. now apply Hf.
    + exact Hn.
Qed.

Lemma row_scan_index_inv (l pre : list float) (cur : float * nat) :
  scan_inv pre (fst cur) (snd cur) ->
  scan_inv (pre ++ l)
           (fst (row_scan_index (length pre) cur l))
           (snd (row_scan_index (length pre) cur l)).
Proof.
  revert pre cur; induction l as [|c l IH]; intros pre [tmp idx] H; simpl.
  - now rewrite app_nil_r.
  - pose proof (scan_inv_step _ _ _ c H) as H'.
    specialize (IH (pre ++ [c]) _ H').
    rewrite length_app, Nat.add_comm in IH. simpl in IH.
    now rewrite <- app_assoc in IH.
Qed.

(** The value the index scan tracks is the value the maximum scan returns. *)
Lemma row_scan_index_fst (l : list float) (col : nat) (cur : float * nat) :
  fst (row_scan_index col cur l) = row_scan_max (fst cur) l.
Proof.
  revert col cur; induction l as [|c l IH]; intros col cur; simpl; [reflexivity|].
  rewrite IH. unfold row_scan_max. simpl. f_equal.
  unfold index_max_update, max_update. now destruct (fst cur <? c).
Qed.

(** Both scans over a whole non-empty row [a :: rest]. *)
Lemma row_scan_spec (a : float) (rest : list float) :
  scan_inv (a :: rest)
           (row_scan_max a rest)
           (snd (row_scan_index 1 (a, 0%nat) rest)).
Proof.
  pose proof (row_scan_index_inv rest [a] (a, 0%nat) (scan_inv_init a)) as H.
  simpl in H. now rewrite row_scan_index_fst in H.
Qed.

End RowScan.

(** ** From the column-major loops to the rows *)

Section MatrixLoops.

Variable x : mat.
Hypothesis Hwf : mat_wf x.

Lemma colptr_length col :
  col < n_cols x -> length (colptr x col) = n_rows x.
Proof.
  intros Hc. unfold colptr. rewrite length_firstn, length_skipn, Hwf. nia.
Qed.

Lemma colptr_nth row col :
  row < n_rows x -> nth row (colptr x col) 0%float = at_ x row col.
Proof.
  intros Hr. unfold colptr, at_.
  rewrite nth_firstn. apply Nat.ltb_lt in Hr. rewrite Hr.
  rewrite nth_skipn. f_equal. lia.
Qed.

Lemma op_max_loop_length k : forall col out,
  length out = n_rows x -> col + k <= n_cols x ->
  length (op_max_loop x k col out) = n_rows x.
Proof.
  induction k as [|k IH]; intros col out Hout Hk; simpl; [exact Hout|].
  apply IH; [|lia]. unfold op_max_col.
  rewrite zip_with_length; [exact Hout|]. rewrite colptr_length; lia.
Qed.

Lemma op_max_loop_nth k : forall col out row,
  length out = n_rows x -> col + k <= n_cols x -> row < n_rows x ->
  nth row (op_max_loop x k col out) 0%float
  = row_scan_max (nth row out 0%float) (map (at_ x row) (seq col k)).
Proof.
  induction k as [|k IH]; intros col out row Hout Hk Hr; simpl; [reflexivity|].
  rewrite IH; try lia.
  - f_equal. unfold op_max_col.
    rewrite (zip_with_nth _ _ _ _ 0%float 0%float);
      [ now rewrite colptr_nth | lia | rewrite colptr_length; lia ].
  - unfold op_max_col. rewrite zip_with_length; [exact Hout|].
    rewrite colptr_length; lia.
Qed.



Hypothesis Hcols : 0 < n_cols x.

Lemma row_of_cons row : row_of x row = at_ x row 0 :: row_tail x row.
Proof.
  unfold row_of, row_tail. destruct (n_cols x) as [|c]; [lia|].
  simpl. now rewrite Nat.sub_0_r.
Qed.



Lemma col_set_size_cols {A} R (k : result (list A)) :
  col_set_size R (n_cols x) k = k.
Proof.
  unfold col_set_size. destruct (n_cols x =? 0) eqn:E; [|reflexivity].
  apply Nat.eqb_eq in E. lia.
Qed.

(** [C_rowmax] returns, and row by row its result is the maximum scan. *)
Lemma C_rowmax_rows :
  exists v, C_rowmax x = Ok v /\ length v = n_rows x /\
    forall i, i < n_rows x ->
      nth i v 0%float = row_scan_max (at_ x i 0) (row_tail x i).
Proof.
  unfold C_rowmax, C_rowmax_calling, arma_max_dim1. rewrite col_set_size_cols.
  eexists; split; [reflexivity|]. split.
  - apply op_max_loop_length; [apply colptr_length|]; lia.
  - intros i Hi. rewrite op_max_loop_nth; try lia.
    + now rewrite colptr_nth.
    + apply colptr_length; lia.
Qed.


(** The invariant of the scans, read on the matrix. *)
Lemma row_scan_inv row :
  scan_inv (row_of x row)
           (row_scan_max (at_ x row 0) (row_tail x row))
           (snd (row_scan_index 1 (at_ x row 0, 0) (row_tail x row))).
Proof. rewrite row_of_cons. apply row_scan_spec. Qed.

End MatrixLoops.

(** ** The exported row reductions *)

(** C1 (as amended). For a matrix with R rows and C > 0 columns, [C_rowmax]
    returns a vector of length R, and for every row i that holds no NaN its
    i-th element is the maximum of the C elements of row i: an element of
    the row that every element of the row is below or equal to. *)
Theorem C_rowmax_is_row_maximum (x : mat) :
  mat_wf x -> 0 < n_cols x ->
  exists v, C_rowmax x = Ok v /\ length v = n_rows x /\
    forall i, i < n_rows x -> no_nan (row_of x i) ->
      row_maximum (nth i v 0%float) (row_of x i).
Proof.
  intros Hwf Hc.
  destruct (C_rowmax_rows x Hwf Hc) as (v & Hv & Hlen & Hrows).
  exists v. split; [exact Hv|]. split; [exact Hlen|].
  intros i Hi Hnan. rewrite (Hrows i Hi).
  destruct (row_scan_inv x Hc i) as [Hidx Hval Hmax _ _].
  assert (Hin : In (row_scan_max (at_ x i 0) (row_tail x i)) (row_of x i)).
  { rewrite <- Hval. now apply nth_In. }
  split; [exact Hin|].
  intros e He. apply FloatOrder.leb_total; auto.
  destruct (In_nth _ _ 0%float He) as (j & Hj & <-). now apply Hmax.
Qed.

Lemma example_matrix_no_nan (i : nat) :
  i < 2 -> no_nan (row_of example_matrix i).
Proof.
  intros Hi e He. destruct i as [|[|i]]; [| |lia]; simpl in He;
    repeat (destruct He as [<-|He]; [reflexivity|]); destruct He.
Qed.

Lemma C_rowmax_is_row_maximum_witness :
  exists v, C_rowmax example_matrix = Ok v /\ length v = 2 /\
    forall i, i < 2 -> row_maximum (nth i v 0%float) (row_of example_matrix i).
Proof.
  destruct (C_rowmax_is_row_maximum example_matrix) as (v & Hv & Hlen & Hrows).
  - reflexivity.
  - simpl. lia.
  - exists v. split; [exact Hv|]. split; [exact Hlen|].
    intros i Hi. apply Hrows; [exact Hi|now apply example_matrix_no_nan].
Defined.

(** C1 as stated fails on the matrix [[NaN, 1]]: no value is the maximum of
    its row, since no value has both NaN and 1 below or equal to it; so
    whatever [C_rowmax] returns for the row is not its maximum. *)
Lemma C_rowmax_nan_row_has_no_maximum :
  mat_wf (Mat 1 2 [nan; 1]%float) /\
  0 < n_cols (Mat 1 2 [nan; 1]%float) /\
  row_of (Mat 1 2 [nan; 1]%float) 0 = [nan; 1]%float /\
  is_ok (C_rowmax (Mat 1 2 [nan; 1]%float)) = true /\
  (forall v, ~ row_maximum v (row_of (Mat 1 2 [nan; 1]%float) 0)).
Proof.
  split; [reflexivity|]. split; [simpl; lia|]. split; [reflexivity|].
  split; [reflexivity|].
  intros v [Hin Hle]. simpl in Hin.
  destruct Hin as [<-|[<-|[]]].
  - specialize (Hle 1%float (or_intror (or_introl eq_refl))). discriminate.
  - specialize (Hle nan (or_introl eq_refl)). discriminate.
Qed.



(** C5. [example_matrix] is the matrix [[1,5,3],[9,2,2]]; on it [C_rowmax]
    returns [5,9] and [C_rowmax_index] returns the zero-based [1,0]. *)
Theorem C_rowmax_example :
  row_of example_matrix 0 = [1; 5; 3]%float /\
  row_of example_matrix 1 = [9; 2; 2]%float /\
  C_rowmax example_matrix = Ok [5; 9]%float /\
  C_rowmax_index example_matrix = Ok [1; 0].
Proof. repeat split; reflexivity. Qed.

(** C6. On a matrix with zero rows or zero columns the two wrappers check
    nothing themselves: whatever routines stand behind [arma::max(x, 1)] and
    [arma::index_max(x, 1)], the outcome of each wrapper, a value or an
    exception, is the outcome of its routine on that same matrix; and the
    exported functions are these wrappers over the Armadillo routines. *)
Theorem C_rowmax_degenerate_defers
  (arma_max_1 : mat -> result (list float))
  (arma_index_max_1 : mat -> result (list nat)) (x : mat) :
  n_rows x = 0 \/ n_cols x = 0 ->
  C_rowmax_calling arma_max_1 x = arma_max_1 x /\
  C_rowmax_index_calling arma_index_max_1 x = arma_index_max_1 x /\
  C_rowmax = C_rowmax_calling arma_max_dim1 /\
  C_rowmax_index = C_rowmax_index_calling arma_index_max_dim1.
Proof. intros _. repeat split. Qed.

Lemma C_rowmax_degenerate_defers_witness :
  C_rowmax_calling (fun _ => Ok [42%float]) (Mat 3 0 []) = Ok [42%float] /\
  C_rowmax_index_calling (fun _ => Throw (logic_error "empty"%string)) (Mat 3 0 [])
  = Throw (logic_error "empty"%string) /\
  C_rowmax = C_rowmax_calling arma_max_dim1 /\
  C_rowmax_index = C_rowmax_index_calling arma_index_max_dim1.
Proof.
  apply (C_rowmax_degenerate_defers
           (fun _ => Ok [42%float])
           (fun _ => Throw (logic_error "empty"%string))
           (Mat 3 0 [])).
  right. reflexivity.
Defined.

(** The model of the routines on degenerate matrices. *)
Example C_rowmax_no_rows :
  C_rowmax (Mat 0 3 []) = Ok [] /\ C_rowmax_index (Mat 0 3 []) = Ok [].
Proof. split; reflexivity. Qed.

Example C_rowmax_no_cols :
  is_ok (C_rowmax (Mat 3 0 [])) = false /\ is_ok (C_rowmax_index (Mat 3 0 [])) = false.
Proof. split; reflexivity. Qed.

(** ** Narrowing to [int] *)

Lemma to_int_small (z : Z) :
  (-2147483648 <= z <= INT_MAX)%Z -> to_int z = z.
Proof.
  unfold INT_MAX, to_int. intros H. rewrite Z.mod_small; lia.
Qed.

(** ** [list_to_vec] *)

Section ListToVecFacts.

Variables (SEXP T2 : Type) (as_T2 : SEXP -> result T2).

(** The loop only reads the host list. *)
Lemma push_back_loop_state k : forall i v l,
  snd (push_back_loop as_T2 k i v l) = l.
Proof.
  induction k as [|k IH]; intros i v l; simpl; [reflexivity|].
  unfold bind, List_get, lift.
  destruct (nth_error l (Z.to_nat i)); [|reflexivity].
  destruct (as_T2 s); [apply IH|reflexivity].
Qed.

Lemma List_get_app (pre : list SEXP) x rest :
  List_get (Z.of_nat (length pre)) (pre ++ x :: rest) = (Ok x, pre ++ x :: rest).
Proof.
  unfold List_get. rewrite Nat2Z.id, nth_error_app2, Nat.sub_diag by lia.
  reflexivity.
Qed.

Lemma next_index (pre : list SEXP) x :
  (Z.of_nat (length pre) + 1)%Z = Z.of_nat (length (pre ++ [x])).
Proof. rewrite length_app. simpl. lia. Qed.

(** Every remaining element converts: the loop appends the conversions in
    order. *)
Lemma push_back_loop_ok rest : forall pre v ys,
  converts as_T2 rest ys ->
  push_back_loop as_T2 (length rest) (Z.of_nat (length pre)) v (pre ++ rest)
  = (Ok (v ++ ys), pre ++ rest).
Proof.
  induction rest as [|x rest IH]; intros pre v ys H; inversion H; subst; simpl.
  - now rewrite !app_nil_r.
  - unfold bind at 1. rewrite List_get_app.
    unfold bind at 1, lift at 1. rewrite H2.
    rewrite (next_index pre x).
    replace (pre ++ x :: rest) with ((pre ++ [x]) ++ rest)
      by (now rewrite <- app_assoc).
    rewrite (IH (pre ++ [x]) (v ++ [y]) l' H4).
    now rewrite <- app_assoc.
Qed.

(** The first element that does not convert ends the loop with its
    exception. *)
Lemma push_back_loop_throw r1 : forall pre v ys1 x r2 e k,
  converts as_T2 r1 ys1 -> as_T2 x = Throw e ->
  push_back_loop as_T2 (length r1 + S k) (Z.of_nat (length pre)) v
                 (pre ++ r1 ++ x :: r2)
  = (Throw e, pre ++ r1 ++ x :: r2).
Proof.
  induction r1 as [|a r1 IH]; intros pre v ys1 x r2 e k H Hx;
    inversion H; subst; simpl.
  - unfold bind at 1. rewrite List_get_app.
    unfold bind at 1, lift at 1. now rewrite Hx.
  - unfold bind at 1. rewrite List_get_app.
    unfold bind at 1, lift at 1. rewrite H2.
    rewrite (next_index pre a).
    replace (pre ++ a :: r1 ++ x :: r2) with ((pre ++ [a]) ++ r1 ++ x :: r2)
      by (now rewrite <- app_assoc).
    now apply (IH (pre ++ [a]) (v ++ [y]) l').
Qed.

Lemma first_failure (l : list SEXP) :
  (exists x, In x l /\ is_ok (as_T2 x) = false) ->
  exists l1 ys1 x l2 e,
    l = l1 ++ x :: l2 /\ converts as_T2 l1 ys1 /\ as_T2 x = Throw e.
Proof.
  induction l as [|a l IH]; intros (x & Hin & Hx); [destruct Hin|].
  destruct (as_T2 a) as [y|e] eqn:Ea.
  - destruct IH as (l1 & ys1 & x' & l2 & e & -> & Hc & Hx').
    + destruct Hin as [->|Hin]; [rewrite Ea in Hx; discriminate|].
      now exists x.
    + exists (a :: l1), (y :: ys1), x', l2, e.
      repeat split; auto. now constructor.
  - exists [], [], a, l, e. repeat split; auto. constructor.
Qed.

(** [list_to_vec] on a list whose length fits [int] is the loop over the
    whole list. *)
Lemma list_to_vec_unfold (l : list SEXP) :
  (Z.of_nat (length l) <= INT_MAX)%Z ->
  list_to_vec as_T2 l = push_back_loop as_T2 (length l) 0%Z [] l.
Proof.
  intros Hlen. unfold list_to_vec, bind at 1, List_size.
  rewrite to_int_small by (unfold INT_MAX in *; lia).
  unfold bind, reserve.
  destruct (Z.ltb_spec (Z.of_nat (length l)) 0); [lia|].
  unfold ret. now rewrite Nat2Z.id.
Qed.

Lemma list_to_vec_state (l : list SEXP) :
  snd (list_to_vec as_T2 l) = l.
Proof.
  unfold list_to_vec, bind at 1, List_size, bind, reserve.
  destruct (to_int (Z.of_nat (length l)) <? 0)%Z; [reflexivity|].
  unfold ret. apply push_back_loop_state.
Qed.

End ListToVecFacts.

Section ListToVecClaims.

Variables (SEXP T2 : Type) (as_T2 : SEXP -> result T2).

(** A list whose length narrows to a negative [int] stops at [reserve]. *)
Lemma list_to_vec_negative_size (l : list SEXP) :
  (to_int (Z.of_nat (length l)) < 0)%Z ->
  list_to_vec as_T2 l = (Throw (length_error "vector::reserve"%string), l).
Proof.
  intros H. unfold list_to_vec, bind at 1, List_size, bind, reserve.
  apply Z.ltb_lt in H. now rewrite H.
Qed.

(** A list whose length narrows to 0 is converted to the empty vector. *)
Lemma list_to_vec_zero_size (l : list SEXP) :
  to_int (Z.of_nat (length l)) = 0%Z ->
  list_to_vec as_T2 l = (Ok [], l).
Proof.
  intros H. unfold list_to_vec, bind at 1, List_size, bind, reserve.
  now rewrite H.
Qed.

Lemma converts_length (l : list SEXP) (ys : list T2) :
  converts as_T2 l ys -> length ys = length l.
Proof. intros H. symmetry. exact (Forall2_length H). Qed.

Lemma converts_nth_error (l : list SEXP) (ys : list T2) :
  converts as_T2 l ys ->
  forall i x, nth_error l i = Some x ->
    exists y, nth_error ys i = Some y /\ as_T2 x = Ok y.
Proof.
  induction 1 as [|a y l ys Hay _ IH]; intros [|i] x Hx; simpl in *;
    try discriminate.
  - injection Hx as <-. now exists y.
  - now apply IH.
Qed.

Lemma converts_repeat (x : SEXP) (y : T2) (n : nat) :
  as_T2 x = Ok y -> converts as_T2 (repeat x n) (repeat y n).
Proof. intros H. induction n; simpl; now constructor. Qed.

End ListToVecClaims.

Lemma in_repeat_pos {A} (x : A) (n : nat) : 0 < n -> In x (repeat x n).
Proof. destruct n; [lia|]. intros _. now left. Qed.

(** C3. The code at a host list of N = 2^31 matrices: every element
    converts, but [int n = l.size()] is negative, [reserve] throws and no
    container of length N is returned. *)
Lemma list_to_vec_2p31_matrices :
  length (host_list_of (RNumericMatrix example_matrix) 2147483648) = Z.to_nat 2147483648 /\
  converts as_mat (host_list_of (RNumericMatrix example_matrix) 2147483648)
                  (repeat example_matrix (Z.to_nat 2147483648)) /\
  list_to_vec as_mat (host_list_of (RNumericMatrix example_matrix) 2147483648)
  = (Throw (length_error "vector::reserve"%string),
     host_list_of (RNumericMatrix example_matrix) 2147483648).
Proof.
  unfold host_list_of. split; [apply repeat_length|]. split.
  - now apply converts_repeat.
  - apply list_to_vec_negative_size.
    rewrite repeat_length, Z2Nat.id by discriminate. reflexivity.
Qed.

(** X13. On a host list of at most INT_MAX elements of which at least one
    does not convert, [list_to_vec] throws the conversion error of the first
    such element and returns no container; a converter built on it throws
    the same error. *)
Theorem list_to_vec_all_or_nothing
  (SEXP T2 : Type) (as_T2 : SEXP -> result T2) (l : list SEXP) :
  (Z.of_nat (length l) <= INT_MAX)%Z ->
  (exists x, In x l /\ is_ok (as_T2 x) = false) ->
  exists l1 ys1 x l2 e,
    l = l1 ++ x :: l2 /\ converts as_T2 l1 ys1 /\ as_T2 x = Throw e /\
    list_to_vec as_T2 l = (Throw e, l) /\
    (forall (as_List : SEXP -> result (list SEXP)) object,
       as_List object = Ok l -> as_vec as_T2 as_List object = Throw e).
Proof.
  intros Hlen Hbad.
  destruct (first_failure SEXP T2 as_T2 l Hbad) as (l1 & ys1 & x & l2 & e & Hl & Hc & Hx).
  assert (Hrun : list_to_vec as_T2 l = (Throw e, l)).
  { rewrite list_to_vec_unfold by exact Hlen. subst l.
    rewrite length_app. simpl length.
    exact (push_back_loop_throw SEXP T2 as_T2 l1 [] [] ys1 x l2 e (length l2) Hc Hx). }
  exists l1, ys1, x, l2, e. repeat split; auto.
  intros as_List object Hobj. unfold as_vec. now rewrite Hobj, Hrun.
Qed.

Lemma list_to_vec_all_or_nothing_witness :
  exists l1 ys1 x l2 e,
    [RNumericMatrix example_matrix; RCharacter []; RNumericMatrix example_matrix]
    = l1 ++ x :: l2 /\
    converts as_mat l1 ys1 /\ as_mat x = Throw e /\
    list_to_vec as_mat
      [RNumericMatrix example_matrix; RCharacter []; RNumericMatrix example_matrix]
    = (Throw e,
       [RNumericMatrix example_matrix; RCharacter []; RNumericMatrix example_matrix]) /\
    (forall (as_List : rvalue -> result (list rvalue)) object,
       as_List object
       = Ok [RNumericMatrix example_matrix; RCharacter []; RNumericMatrix example_matrix] ->
       as_vec as_mat as_List object = Throw e).
Proof.
  apply (list_to_vec_all_or_nothing rvalue mat as_mat
           [RNumericMatrix example_matrix; RCharacter []; RNumericMatrix example_matrix]).
  - unfold INT_MAX. simpl. lia.
  - exists (RCharacter []). split; [simpl; tauto | reflexivity].
Defined.

(** C4. The code at a host list of 2^32 elements none of which
    converts: [int n = l.size()] is 0, the loop does not run, and the empty
    container is returned instead of a conversion error. On such a list of
    2^31 elements [n] is negative and the exception is the
    [std::length_error] of [reserve], not a conversion error. *)
Lemma list_to_vec_2p32_unconvertible :
  In RNull (host_list_of RNull 4294967296) /\
  (forall x, In x (host_list_of RNull 4294967296) -> is_ok (as_mat x) = false) /\
  list_to_vec as_mat (host_list_of RNull 4294967296)
  = (Ok [], host_list_of RNull 4294967296) /\
  In RNull (host_list_of RNull 2147483648) /\
  list_to_vec as_mat (host_list_of RNull 2147483648)
  = (Throw (length_error "vector::reserve"%string), host_list_of RNull 2147483648).
Proof.
  unfold host_list_of. split; [apply in_repeat_pos; lia|]. split; [|split; [|split]].
  - intros x Hx. apply repeat_spec in Hx. now subst x.
  - apply list_to_vec_zero_size.
    rewrite repeat_length, Z2Nat.id by discriminate. reflexivity.
  - apply in_repeat_pos; lia.
  - apply list_to_vec_negative_size.
    rewrite repeat_length, Z2Nat.id by discriminate. reflexivity.
Qed.

(** The converters on host values. *)
Example as_vecmats_2d_runs :
  as_vecmats_2d
    (RList [RList [RNumericMatrix example_matrix]; RList []])
  = Ok [[example_matrix]; []].
Proof. reflexivity. Qed.

Example as_vecmats_3d_throws :
  as_vecmats_3d
    (RList [RList [RList [RNumericMatrix example_matrix]]; RList [RList [RNull]]])
  = Throw (not_compatible "not a matrix"%string).
Proof. reflexivity. Qed.

Example as_vecstrings_2d_runs :
  as_vecstrings_2d (RList [RCharacter ["a"; "b"]%string; RCharacter []])
  = Ok [["a"; "b"]%string; []].
Proof. reflexivity. Qed.

(** ** [max_element_pos] *)

Section MaxElement.

Variables (T : Type) (ltb : T -> T -> bool).
Hypothesis Hswo : strict_weak_order ltb.
Variable d : T.

Lemma largest_inv_init (a : T) : largest_inv ltb d [a] 0 a.
Proof.
  split; simpl; try lia; try reflexivity.
  intros [|[|j]] Hj; simpl in *; try lia. apply (swo_irrefl ltb Hswo).
Qed.

Lemma max_element_scan_inv (l : list T) : forall pre largest largest_val,
  largest_inv ltb d pre largest largest_val ->
  largest_inv ltb d (pre ++ l)
    (max_element_scan ltb largest largest_val (length pre) l)
    (nth (max_element_scan ltb largest largest_val (length pre) l) (pre ++ l) d).
Proof.
  induction l as [|c l IH]; intros pre lg lv [Hb Hv Hm Hf]; simpl.
  - rewrite app_nil_r. rewrite Hv. now split.
  - replace (pre ++ c :: l) with ((pre ++ [c]) ++ l) by (now rewrite <- app_assoc).
    replace (S (length pre)) with (length (pre ++ [c]))
      by (rewrite length_app; simpl; lia).
    destruct (ltb lv c) eqn:E; apply IH; split.
    + rewrite length_app. simpl. lia.
    + now rewrite app_nth2, Nat.sub_diag by lia.
    + intros j Hj. rewrite length_app in Hj. simpl in Hj.
      destruct (Nat.eq_dec j (length pre)) as [->|Hne].
      * rewrite app_nth2, Nat.sub_diag by lia. apply (swo_irrefl ltb Hswo).
      * rewrite app_nth1 by lia.
        destruct (ltb c (nth j pre d)) eqn:E'; [|reflexivity].
        rewrite <- (Hm j) by lia. symmetry.
        exact (swo_trans ltb Hswo _ _ _ E E').
    + intros j Hj. rewrite app_nth1 by lia.
      destruct (swo_cotrans ltb Hswo lv (nth j pre d) c E) as [H|H]; [|exact H].
      rewrite (Hm j) in H by lia. discriminate.
    + rewrite length_app. simpl. lia.
    + rewrite app_nth1 by lia. exact Hv.
    + intros j Hj. rewrite length_app in Hj. simpl in Hj.
      destruct (Nat.eq_dec j (length pre)) as [->|Hne].
      * now rewrite app_nth2, Nat.sub_diag by lia.
      * rewrite app_nth1 by lia. apply Hm. lia.
    + intros j Hj. rewrite app_nth1 by lia. now apply Hf.
Qed.

Lemma max_element_inv (a : T) (l : list T) :
  largest_inv ltb d (a :: l) (max_element ltb (a :: l))
              (nth (max_element ltb (a :: l)) (a :: l) d).
Proof. exact (max_element_scan_inv l [a] 0 a (largest_inv_init a)). Qed.

End MaxElement.

(** X14. For an element type whose [<] is a strict weak ordering:
    [max_element_pos] returns 0 on the empty range, and on a non-empty range
    of at most 2^31 elements it returns the position of the first occurrence
    of the largest element: no element of the range exceeds the one at that
    position and every element before it is strictly smaller. *)
Theorem max_element_pos_first_largest
  (T : Type) (ltb : T -> T -> bool) (l : list T) (d : T) :
  strict_weak_order ltb ->
  (Z.of_nat (length l) <= INT_MAX + 1)%Z ->
  (l = [] -> max_element_pos ltb l = 0%Z) /\
  (l <> [] ->
   exists p, max_element_pos ltb l = Z.of_nat p /\ p < length l /\
     (forall j, j < length l -> ltb (nth p l d) (nth j l d) = false) /\
     (forall j, j < p -> ltb (nth j l d) (nth p l d) = true)).
Proof.
  intros Hswo Hlen. split.
  - intros ->. reflexivity.
  - intros Hne. destruct l as [|a l]; [contradiction|].
    destruct (max_element_inv T ltb Hswo d a l) as [Hb _ Hm Hf].
    exists (max_element ltb (a :: l)). repeat split; auto.
    unfold max_element_pos. apply to_int_small. unfold INT_MAX in *. lia.
Qed.

Lemma max_element_pos_first_largest_witness :
  ([3; 8; 8; 1]%Z = [] -> max_element_pos Z.ltb [3; 8; 8; 1]%Z = 0%Z) /\
  ([3; 8; 8; 1]%Z <> [] ->
   exists p, max_element_pos Z.ltb [3; 8; 8; 1]%Z = Z.of_nat p /\ p < 4 /\
     (forall j, j < 4 ->
        Z.ltb (nth p [3; 8; 8; 1]%Z 0%Z) (nth j [3; 8; 8; 1]%Z 0%Z) = false) /\
     (forall j, j < p ->
        Z.ltb (nth j [3; 8; 8; 1]%Z 0%Z) (nth p [3; 8; 8; 1]%Z 0%Z) = true)).
Proof.
  apply (max_element_pos_first_largest Z Z.ltb [3; 8; 8; 1]%Z 0%Z).
  - split; intros; lia.
  - unfold INT_MAX. simpl. lia.
Defined.

Lemma max_element_repeat_then_larger {T} (ltb : T -> T -> bool) (a b : T) (n : nat) :
  ltb a a = false -> ltb a b = true ->
  max_element ltb (repeat a n ++ [b]) = n.
Proof.
  intros Haa Hab.
  assert (Hscan : forall m lg first,
             max_element_scan ltb lg a first (repeat a m ++ [b]) = first + m).
  { induction m as [|m IH]; intros lg first; simpl.
    - rewrite Hab. lia.
    - rewrite Haa, IH. lia. }
  destruct n as [|n]; simpl.
  - reflexivity.
  - now rewrite Hscan.
Qed.

(** C9. The code at the range of 2^31 zeros followed by a 1: the largest
    element sits at position 2^31, and the [int] returned is -2^31. *)
Lemma max_element_pos_2p31_zeros_then_one :
  max_element Z.ltb (zeros_then_one 2147483648) = Z.to_nat 2147483648 /\
  max_element_pos Z.ltb (zeros_then_one 2147483648) = (-2147483648)%Z.
Proof.
  assert (H : max_element Z.ltb (zeros_then_one 2147483648) = Z.to_nat 2147483648)
    by (apply max_element_repeat_then_larger; reflexivity).
  split; [exact H|].
  unfold max_element_pos. rewrite H, Z2Nat.id by discriminate. reflexivity.
Qed.

(** ** [unique] *)

Section Unique.

Variables (T : Type) (ltb eqb : T -> T -> bool).
Hypothesis Hto : total_order ltb eqb.

Local Abbreviation lt_ := (strictly_ascending ltb).
Local Abbreviation le_ := (ascending ltb).

Lemma lt_le a b : lt_ a b -> le_ a b.
Proof.
  unfold strictly_ascending, ascending. intros H. destruct (ltb b a) eqn:E; [|reflexivity].
  rewrite <- (to_irrefl ltb eqb Hto a). symmetry.
  exact (to_trans ltb eqb Hto _ _ _ H E).
Qed.

Lemma le_neq_lt a b : le_ a b -> a <> b -> lt_ a b.
Proof.
  unfold strictly_ascending, ascending. intros H Hne. destruct (ltb a b) eqn:E; [reflexivity|].
  exfalso. apply Hne. now apply (to_total ltb eqb Hto).
Qed.

Lemma sort_insert_in x l y : In y (sort_insert ltb x l) <-> y = x \/ In y l.
Proof.
  induction l as [|a l IH]; simpl.
  - intuition.
  - destruct (ltb a x); simpl; rewrite ?IH; intuition.
Qed.

Lemma sort_insert_sorted x l :
  StronglySorted le_ l -> StronglySorted le_ (sort_insert ltb x l).
Proof.
  induction 1 as [|a l Hs IH Hall]; simpl.
  - repeat constructor.
  - destruct (ltb a x) eqn:E.
    + constructor; [exact IH|].
      apply Forall_forall. intros y Hy. apply sort_insert_in in Hy.
      destruct Hy as [->|Hy]; [now apply lt_le|].
      rewrite Forall_forall in Hall. now apply Hall.
    + constructor; [now constructor|].
      constructor; [exact E|].
      apply Forall_forall. intros y Hy. rewrite Forall_forall in Hall.
      specialize (Hall y Hy). unfold ascending in *.
      destruct (ltb y x) eqn:E'; [|reflexivity].
      (* y < x with a <= y would give a < x *)
      destruct (ltb a y) eqn:E''.
      * rewrite (to_trans ltb eqb Hto _ _ _ E'' E') in E. discriminate.
      * assert (a = y) by now apply (to_total ltb eqb Hto). subst. congruence.
Qed.

Lemma std_sort_in l y : In y (std_sort ltb l) <-> In y l.
Proof.
  induction l as [|a l IH]; simpl; [reflexivity|].
  rewrite sort_insert_in, IH. intuition.
Qed.

Lemma std_sort_sorted l : StronglySorted le_ (std_sort ltb l).
Proof.
  induction l as [|a l IH]; simpl; [constructor|now apply sort_insert_sorted].
Qed.

Lemma std_sort_perm l : Permutation l (std_sort ltb l).
Proof.
  assert (Hins : forall x l', Permutation (x :: l') (sort_insert ltb x l')).
  { intros x l'. induction l' as [|a l' IH]; simpl; [reflexivity|].
    destruct (ltb a x); [|reflexivity].
    rewrite perm_swap. now constructor. }
  induction l as [|a l IH]; simpl; [constructor|].
  rewrite <- Hins. now constructor.
Qed.

(** On an ascending range above [prev], the scan keeps one element of
    every value and leaves a strictly ascending range. *)
Lemma unique_scan_spec l : forall prev,
  StronglySorted le_ l -> Forall (le_ prev) l ->
  StronglySorted lt_ (prev :: unique_scan eqb prev l) /\
  forall y, In y (prev :: unique_scan eqb prev l) <-> In y (prev :: l).
Proof.
  induction l as [|x l IH]; intros prev Hs Hall; simpl.
  - split; [repeat constructor|reflexivity].
  - inversion Hs as [|? ? Hs' Hx]; subst. inversion Hall as [|? ? Hpx Hall']; subst.
    destruct (eqb prev x) eqn:E.
    + apply (to_eqb ltb eqb Hto) in E. subst x.
      destruct (IH prev Hs' Hall') as [H1 H2].
      split; [exact H1|]. intros y. specialize (H2 y). simpl in *. intuition.
    + assert (Hne : prev <> x).
      { intros ->. rewrite (proj2 (to_eqb ltb eqb Hto x x) eq_refl) in E. discriminate. }
      destruct (IH x Hs' Hx) as [H1 H2].
      split.
      * constructor; [exact H1|].
        inversion H1 as [|? ? _ Hgt]; subst.
        pose proof (le_neq_lt _ _ Hpx Hne) as Hlt.
        constructor; [exact Hlt|].
        apply Forall_forall. intros y Hy. rewrite Forall_forall in Hgt.
        exact (to_trans ltb eqb Hto _ _ _ Hlt (Hgt y Hy)).
      * intros y. specialize (H2 y). simpl in *. intuition.
Qed.

Lemma unique_sorted v : StronglySorted lt_ (unique ltb eqb v).
Proof.
  unfold unique. pose proof (std_sort_sorted v) as Hs.
  destruct (std_sort ltb v) as [|a l]; simpl; [constructor|].
  inversion Hs; subst. now apply unique_scan_spec.
Qed.

Lemma unique_in v y : In y (unique ltb eqb v) <-> In y v.
Proof.
  rewrite <- (std_sort_in v y). unfold unique.
  pose proof (std_sort_sorted v) as Hs.
  destruct (std_sort ltb v) as [|a l]; simpl; [reflexivity|].
  inversion Hs; subst. now apply unique_scan_spec.
Qed.

Lemma strictly_sorted_NoDup l : StronglySorted lt_ l -> NoDup l.
Proof.
  induction 1 as [|a l Hs IH Hall]; constructor; [|exact IH].
  intros Hin. rewrite Forall_forall in Hall. specialize (Hall a Hin).
  unfold strictly_ascending in Hall. rewrite (to_irrefl ltb eqb Hto) in Hall. discriminate.
Qed.

Lemma strictly_sorted_adjacent pre : forall a b post,
  StronglySorted lt_ (pre ++ a :: b :: post) -> lt_ a b.
Proof.
  induction pre as [|c pre IH]; intros a b post H; simpl in H;
    inversion H as [|? ? Hs Hall]; subst.
  - now inversion Hall.
  - now apply (IH a b post).
Qed.

End Unique.

(** ** [unique] on a strict weak ordering *)

Section UniqueWeak.

Variables (T : Type) (ltb eqb : T -> T -> bool) (P : T -> Prop).
Hypothesis Hwo : weak_order_on ltb eqb P.

Local Abbreviation lt_ := (strictly_ascending ltb).
Local Abbreviation le_ := (ascending ltb).

Lemma wo_asym a b : P a -> P b -> ltb a b = true -> ltb b a = false.
Proof.
  intros Pa Pb H. destruct (ltb b a) eqn:E; [|reflexivity].
  rewrite <- (wo_irrefl ltb eqb P Hwo a Pa). symmetry.
  exact (wo_trans ltb eqb P Hwo a b a Pa Pb Pa H E).
Qed.

Lemma wo_eqb_refl a : P a -> eqb a a = true.
Proof.
  intros Pa. apply (wo_eqb ltb eqb P Hwo a a Pa Pa).
  split; apply (wo_irrefl ltb eqb P Hwo a Pa).
Qed.

Lemma wo_eqb_sym a b : P a -> P b -> eqb a b = true -> eqb b a = true.
Proof.
  intros Pa Pb H. apply (wo_eqb ltb eqb P Hwo a b Pa Pb) in H.
  apply (wo_eqb ltb eqb P Hwo b a Pb Pa). tauto.
Qed.

Lemma wo_lt_neq a b : P a -> P b -> ltb a b = true -> eqb a b = false.
Proof.
  intros Pa Pb H. destruct (eqb a b) eqn:E; [|reflexivity].
  apply (wo_eqb ltb eqb P Hwo a b Pa Pb) in E. destruct E as [E _]. congruence.
Qed.

Lemma wo_le_neq_lt a b : P a -> P b -> le_ a b -> eqb a b = false -> lt_ a b.
Proof.
  unfold ascending, strictly_ascending. intros Pa Pb Hle Hne.
  destruct (ltb a b) eqn:E; [reflexivity|].
  rewrite (proj2 (wo_eqb ltb eqb P Hwo a b Pa Pb) (conj E Hle)) in Hne. discriminate.
Qed.

Lemma sort_insert_sorted_weak x l :
  P x -> Forall P l -> StronglySorted le_ l ->
  StronglySorted le_ (sort_insert ltb x l).
Proof.
  intros Px HP Hs. induction Hs as [|a l Hs IH Hall]; simpl.
  - repeat constructor.
  - inversion HP as [|? ? Pa HPl]; subst.
    rewrite Forall_forall in Hall, HPl.
    destruct (ltb a x) eqn:E.
    + constructor; [now apply IH; apply Forall_forall|].
      apply Forall_forall. intros y Hy. apply sort_insert_in in Hy.
      destruct Hy as [->|Hy]; [now apply wo_asym|now apply Hall].
    + constructor; [now constructor; [|apply Forall_forall]|].
      constructor; [exact E|].
      apply Forall_forall. intros y Hy. unfold ascending.
      destruct (ltb y x) eqn:E'; [|reflexivity].
      destruct (wo_cotrans ltb eqb P Hwo y a x (HPl y Hy) Pa Px E') as [H|H].
      * specialize (Hall y Hy). unfold ascending in Hall. congruence.
      * congruence.
Qed.

Lemma std_sort_sorted_weak l :
  Forall P l -> StronglySorted le_ (std_sort ltb l).
Proof.
  induction 1 as [|a l Pa HP IH]; simpl; [constructor|].
  apply sort_insert_sorted_weak; [exact Pa| |exact IH].
  apply Forall_forall. intros y Hy. apply std_sort_in in Hy.
  rewrite Forall_forall in HP. now apply HP.
Qed.

(** The scan of [std::unique] over an ascending range that starts at
    [prev]. *)
Lemma unique_scan_weak l : forall prev,
  P prev -> Forall P l -> StronglySorted le_ (prev :: l) ->
  StronglySorted lt_ (prev :: unique_scan eqb prev l) /\
  incl (unique_scan eqb prev l) l /\
  forall x, In x (prev :: l) ->
    exists y, In y (prev :: unique_scan eqb prev l) /\ eqb x y = true.
Proof.
  induction l as [|x l IH]; intros prev Pp HP Hs; simpl.
  - split; [repeat constructor|]. split; [intros y []|].
    intros y [<-|[]]. exists prev. split; [now left|now apply wo_eqb_refl].
  - inversion HP as [|? ? Px HPl]; subst.
    apply StronglySorted_inv in Hs. destruct Hs as [Hs Hall].
    inversion Hall as [|? ? Hpx Hall']; subst.
    pose proof (StronglySorted_inv Hs) as [Hs' Hx].
    destruct (eqb prev x) eqn:E.
    + destruct (IH prev Pp HPl (SSorted_cons prev Hs' Hall')) as (U1 & U2 & U3).
      split; [exact U1|]. split; [intros y Hy; right; now apply U2|].
      intros y [<-|[<-|Hy]].
      * apply U3. now left.
      * exists prev. split; [now left|now apply wo_eqb_sym].
      * apply U3. now right.
    + destruct (IH x Px HPl Hs) as (U1 & U2 & U3).
      pose proof (wo_le_neq_lt prev x Pp Px Hpx E) as Hlt.
      split; [|split].
      * constructor; [exact U1|]. constructor; [exact Hlt|].
        apply StronglySorted_inv in U1. destruct U1 as [_ Hgt].
        rewrite Forall_forall in Hgt, HPl.
        apply Forall_forall. intros y Hy.
        exact (wo_trans ltb eqb P Hwo prev x y Pp Px (HPl y (U2 y Hy)) Hlt (Hgt y Hy)).
      * intros y [<-|Hy]; [now left|right; now apply U2].
      * intros y [<-|Hy].
        -- exists prev. split; [now left|now apply wo_eqb_refl].
        -- destruct (U3 y Hy) as (z & Hz & Ez). exists z. split; [now right|exact Ez].
Qed.

Lemma std_unique_weak s :
  Forall P s -> StronglySorted le_ s ->
  StronglySorted lt_ (std_unique eqb s) /\
  incl (std_unique eqb s) s /\
  forall x, In x s -> exists y, In y (std_unique eqb s) /\ eqb x y = true.
Proof.
  intros HP Hs. destruct s as [|a s]; simpl.
  - split; [constructor|]. split; [intros y []|intros x []].
  - inversion HP; subst.
    destruct (unique_scan_weak s a) as (U1 & U2 & U3); auto.
    split; [exact U1|]. split; [|exact U3].
    intros y [<-|Hy]; [now left|right; now apply U2].
Qed.

Lemma strictly_sorted_post u :
  Forall P u -> StronglySorted lt_ u ->
  StronglySorted le_ u /\
  (forall pre a b post, u = pre ++ a :: b :: post -> eqb a b = false) /\
  ForallOrdPairs (fun a b => eqb a b = false) u.
Proof.
  intros HP Hs. split; [|split].
  - induction Hs as [|a l Hs IH Hall]; constructor.
    + apply IH. now inversion HP.
    + inversion HP as [|? ? Pa HPl]; subst. rewrite Forall_forall in Hall, HPl.
      apply Forall_forall. intros y Hy. unfold ascending.
      apply wo_asym; [exact Pa|now apply HPl|now apply Hall].
  - intros pre a b post E. subst u.
    pose proof (strictly_sorted_adjacent T ltb pre a b post Hs) as Hlt.
    rewrite Forall_forall in HP.
    apply wo_lt_neq; [apply HP|apply HP|exact Hlt];
      apply in_or_app; right; simpl; tauto.
  - induction Hs as [|a l Hs IH Hall]; constructor.
    + inversion HP as [|? ? Pa HPl]; subst. rewrite Forall_forall in Hall, HPl.
      apply Forall_forall. intros y Hy. apply wo_lt_neq; auto. now apply Hall.
    + apply IH. now inversion HP.
Qed.

(** [std::unique] after any outcome [s] of [std::sort] on [v]. *)
Lemma unique_post_of_sorted v s :
  Forall P v -> Permutation v s -> StronglySorted le_ s ->
  unique_post ltb eqb v (std_unique eqb s).
Proof.
  intros HP Hperm Hs.
  assert (HPs : Forall P s) by (eapply Permutation_Forall; eauto).
  destruct (std_unique_weak s HPs Hs) as (H1 & H2 & H3).
  assert (HPu : Forall P (std_unique eqb s)).
  { rewrite Forall_forall in HPs. apply Forall_forall. intros y Hy. apply HPs, H2, Hy. }
  destruct (strictly_sorted_post _ HPu H1) as (Ha & Hb & Hc).
  split; auto.
  - intros y Hy. apply (Permutation_in _ (Permutation_sym Hperm)), H2, Hy.
  - intros x Hx. apply H3. now apply (Permutation_in _ Hperm).
Qed.

End UniqueWeak.

(** The order of the doubles that are not NaN. *)
Ltac sf_cases2 f g :=
  unfold SFltb, SFleb, SFeqb, SFcompare;
  destruct f as [[|]|[|]| |[|] mf ef], g as [[|]|[|]| |[|] mg eg];
  simpl; try discriminate; try reflexivity;
  change (Pos.compare_cont Eq) with Pos.compare;
  intros; FloatOrder.cmp_cases; simpl in *; try discriminate; try reflexivity;
  subst; try lia.

Lemma SFeqb_not_ltb f g : SFeqb f g = true -> SFltb f g = false.
Proof. sf_cases2 f g. Qed.

Lemma SFeqb_not_gtb f g : SFeqb f g = true -> SFltb g f = false.
Proof. sf_cases2 f g. Qed.

Lemma SFeqb_of_not_ltb f g :
  SFeqb f f = true -> SFeqb g g = true ->
  SFltb f g = false -> SFltb g f = false -> SFeqb f g = true.
Proof. sf_cases2 f g. Qed.

Lemma SFltb_neg_trans f g h :
  SFeqb g g = true -> SFltb f g = false -> SFltb g h = false -> SFltb f h = false.
Proof.
  unfold SFltb, SFeqb, SFcompare;
  destruct f as [[|]|[|]| |[|] mf ef], g as [[|]|[|]| |[|] mg eg],
           h as [[|]|[|]| |[|] mh eh];
  simpl; try discriminate; try reflexivity;
  change (Pos.compare_cont Eq) with Pos.compare;
  intros; FloatOrder.cmp_cases; simpl in *; try discriminate; try reflexivity;
  subst; try lia.
Qed.

Lemma float_weak_order :
  weak_order_on PrimFloat.ltb PrimFloat.eqb (fun x => is_nan x = false).
Proof.
  split.
  - intros a _. apply FloatOrder.ltb_irrefl.
  - intros a b c _ _ _. apply FloatOrder.ltb_trans.
  - intros a b c _ Hb _ Hac. unfold is_nan in Hb. apply negb_false_iff in Hb.
    rewrite eqb_spec in Hb.
    destruct (a <? b)%float eqn:Eab; [now left|].
    destruct (b <? c)%float eqn:Ebc; [now right|].
    rewrite ltb_spec in Eab, Ebc, Hac.
    rewrite (SFltb_neg_trans _ _ _ Hb Eab Ebc) in Hac. discriminate.
  - intros a b Ha Hb. unfold is_nan in Ha, Hb. apply negb_false_iff in Ha, Hb.
    rewrite eqb_spec in *. rewrite !ltb_spec. split.
    + intros H. split; [now apply SFeqb_not_ltb|now apply SFeqb_not_gtb].
    + intros [H1 H2]. now apply SFeqb_of_not_ltb.
Qed.

(** C10 (as amended). For a vector [v] on whose elements [<] is a strict
    weak ordering with [==] as its equivalence (every vector of integers or
    strings, every vector of doubles that holds no NaN): after [unique(v)]
    the vector is in ascending order, holds no two equal elements, adjacent
    or not, and holds exactly the distinct elements of the original -- each
    of its elements is an element of [v] and every element of [v] is equal
    to one of them. This holds of [std::unique] after whatever ascending
    arrangement of [v] [std::sort] leaves, the one of the model included. *)
Theorem unique_sorted_distinct_same_elements
  (T : Type) (ltb eqb : T -> T -> bool) (P : T -> Prop) (v : list T) :
  weak_order_on ltb eqb P -> Forall P v ->
  (forall s, Permutation v s -> StronglySorted (ascending ltb) s ->
     unique_post ltb eqb v (std_unique eqb s)) /\
  unique_post ltb eqb v (unique ltb eqb v).
Proof.
  intros Hwo HP. split.
  - intros s Hperm Hs. now apply (unique_post_of_sorted T ltb eqb P Hwo).
  - apply (unique_post_of_sorted T ltb eqb P Hwo); [exact HP| |].
    + apply std_sort_perm.
    + now apply (std_sort_sorted_weak T ltb eqb P Hwo).
Qed.

Lemma unique_sorted_distinct_same_elements_witness :
  (forall s, Permutation [2; 0; neg_zero; 2]%float s ->
     StronglySorted (ascending PrimFloat.ltb) s ->
     unique_post PrimFloat.ltb PrimFloat.eqb [2; 0; neg_zero; 2]%float
                 (std_unique PrimFloat.eqb s)) /\
  unique_post PrimFloat.ltb PrimFloat.eqb [2; 0; neg_zero; 2]%float
              (unique PrimFloat.ltb PrimFloat.eqb [2; 0; neg_zero; 2]%float).
Proof.
  apply (unique_sorted_distinct_same_elements float PrimFloat.ltb PrimFloat.eqb
           (fun x => is_nan x = false) [2; 0; neg_zero; 2]%float).
  - exact float_weak_order.
  - repeat constructor.
Defined.

(** C10 as stated fails on the vector of doubles [1, NaN, 1]: every
    comparison with the NaN is false, so neither [std::sort] nor
    [std::unique] moves or erases anything, and the vector left holds 1
    twice. *)
Lemma unique_nan_keeps_duplicates :
  unique PrimFloat.ltb PrimFloat.eqb [1; nan; 1]%float = [1; nan; 1]%float /\
  (nth 0 (unique PrimFloat.ltb PrimFloat.eqb [1; nan; 1]%float) 0
   =? nth 2 (unique PrimFloat.ltb PrimFloat.eqb [1; nan; 1]%float) 0)%float = true /\
  ~ NoDup (unique PrimFloat.ltb PrimFloat.eqb [1; nan; 1]%float).
Proof.
  split; [reflexivity|]. split; [reflexivity|].
  change (unique PrimFloat.ltb PrimFloat.eqb [1; nan; 1]%float) with [1; nan; 1]%float.
  intros H. inversion H as [|? ? Hin _]; subst. apply Hin. simpl. tauto.
Qed.

Example unique_doubles_runs :
  unique PrimFloat.ltb PrimFloat.eqb [2; 0; neg_zero; 2]%float = [0; 2]%float.
Proof. reflexivity. Qed.

Example unique_runs : unique Z.ltb Z.eqb [3; 1; 3; 2; 1]%Z = [1; 2; 3]%Z.
Proof. reflexivity. Qed.

(* ================================================================== *)
(** * Part III: further properties of the code                        *)
(* ================================================================== *)

(** ** [list_to_vec] as a function of the host list *)

Section ListToVecOutcome.

Variables (SEXP T2 : Type) (as_T2 : SEXP -> result T2).

(** The loop over the elements [r] that follow [pre], whatever comes after
    them in the host list. *)
Lemma push_back_loop_convert_all r : forall pre v tl,
  push_back_loop as_T2 (length r) (Z.of_nat (length pre)) v (pre ++ r ++ tl)
  = (append_to v (convert_all as_T2 r), pre ++ r ++ tl).
Proof.
  induction r as [|x r IH]; intros pre v tl; simpl.
  - now rewrite app_nil_r.
  - unfold bind at 1. rewrite List_get_app.
    unfold bind at 1, lift at 1.
    destruct (as_T2 x) as [y|e]; [|reflexivity].
    rewrite (next_index SEXP pre x).
    replace (pre ++ x :: r ++ tl) with ((pre ++ [x]) ++ r ++ tl)
      by (now rewrite <- app_assoc).
    rewrite IH. f_equal.
    destruct (convert_all as_T2 r); simpl; [|reflexivity].
    now rewrite <- app_assoc.
Qed.

Lemma to_int_le (z : Z) : (0 <= z)%Z -> (to_int z <= z)%Z.
Proof.
  intros Hz. unfold to_int.
  pose proof (Z.mod_le (z + 2147483648) 4294967296). lia.
Qed.

Lemma convert_all_ok_iff (l : list SEXP) (ys : list T2) :
  convert_all as_T2 l = Ok ys <-> converts as_T2 l ys.
Proof.
  split.
  - revert ys; induction l as [|x l IH]; intros ys H; simpl in H.
    + injection H as <-. constructor.
    + destruct (as_T2 x) as [y|e] eqn:Ex; [|discriminate].
      destruct (convert_all as_T2 l) as [ys'|e]; [|discriminate].
      injection H as <-. constructor; [exact Ex|now apply IH].
  - induction 1 as [|x y l ys Hxy _ IH]; simpl; [reflexivity|].
    now rewrite Hxy, IH.
Qed.

Lemma convert_all_app (l1 l2 : list SEXP) :
  convert_all as_T2 (l1 ++ l2)
  = match convert_all as_T2 l1 with
    | Ok ys1 => append_to ys1 (convert_all as_T2 l2)
    | Throw e => Throw e
    end.
Proof.
  induction l1 as [|x l1 IH]; simpl.
  - now destruct (convert_all as_T2 l2).
  - destruct (as_T2 x) as [y|e]; [|reflexivity].
    rewrite IH. destruct (convert_all as_T2 l1) as [ys1|e]; [|reflexivity].
    now destruct (convert_all as_T2 l2).
Qed.

End ListToVecOutcome.

(** X1. On a host list of any length [list_to_vec] leaves the list as it
    is and has one of two outcomes: when the length narrowed to [int] is
    negative, the [std::length_error] of [reserve]; otherwise the outcome of
    converting, in order, the first [n] elements, [n] the narrowed length
    -- their conversions, or the exception of the first of them that does
    not convert. No access to the list is out of range. *)
Theorem list_to_vec_any_length
  (SEXP T2 : Type) (as_T2 : SEXP -> result T2) (l : list SEXP) :
  (to_int (Z.of_nat (length l)) <= Z.of_nat (length l))%Z /\
  list_to_vec as_T2 l
  = (if (to_int (Z.of_nat (length l)) <? 0)%Z
     then Throw (length_error "vector::reserve"%string)
     else convert_all as_T2 (firstn (Z.to_nat (to_int (Z.of_nat (length l)))) l),
     l).
Proof.
  split; [apply to_int_le; lia|].
  unfold list_to_vec, bind at 1, List_size, bind, reserve.
  pose proof (to_int_le (Z.of_nat (length l)) ltac:(lia)) as Hle.
  destruct (Z.ltb_spec (to_int (Z.of_nat (length l))) 0) as [Hneg|Hpos]; [reflexivity|].
  unfold ret.
  set (k := Z.to_nat (to_int (Z.of_nat (length l)))).
  assert (Hk : k <= length l) by lia.
  pose proof (push_back_loop_convert_all SEXP T2 as_T2 (firstn k l) [] [] (skipn k l)) as H.
  rewrite length_firstn, Nat.min_l in H by exact Hk.
  simpl in H. rewrite firstn_skipn in H. rewrite H.
  now destruct (convert_all as_T2 (firstn k l)).
Qed.

Lemma list_to_vec_bounded
  (SEXP T2 : Type) (as_T2 : SEXP -> result T2) (l : list SEXP) :
  (Z.of_nat (length l) <= INT_MAX)%Z ->
  list_to_vec as_T2 l = (convert_all as_T2 l, l).
Proof.
  intros Hlen. rewrite list_to_vec_unfold by exact Hlen.
  pose proof (push_back_loop_convert_all SEXP T2 as_T2 l [] [] []) as H.
  simpl in H. rewrite app_nil_r in H. rewrite H.
  now destruct (convert_all as_T2 l).
Qed.

(** X2. On a host list of at most INT_MAX elements [list_to_vec] returns a
    vector exactly when every element converts, and the vector returned is
    then the element-wise conversion: a returned vector has the length of
    the list and holds no element that is not the conversion of the list
    element at its position. *)
Theorem list_to_vec_returns_iff
  (SEXP T2 : Type) (as_T2 : SEXP -> result T2) (l : list SEXP) (ys : list T2) :
  (Z.of_nat (length l) <= INT_MAX)%Z ->
  (fst (list_to_vec as_T2 l) = Ok ys <-> converts as_T2 l ys) /\
  (fst (list_to_vec as_T2 l) = Ok ys ->
   length ys = length l /\
   forall i y, nth_error ys i = Some y ->
     exists x, nth_error l i = Some x /\ as_T2 x = Ok y).
Proof.
  intros Hlen. rewrite (list_to_vec_bounded SEXP T2 as_T2 l Hlen). simpl.
  split; [apply convert_all_ok_iff|].
  intros H. apply convert_all_ok_iff in H.
  split; [now apply (converts_length SEXP T2 as_T2)|].
  clear Hlen. induction H as [|x y l ys Hxy _ IH]; intros [|i] y' Hy; simpl in *;
    try discriminate.
  - injection Hy as <-. now exists x.
  - now apply IH.
Qed.

Lemma list_to_vec_returns_iff_witness :
  (fst (list_to_vec as_mat [RNumericMatrix example_matrix]) = Ok [example_matrix]
   <-> converts as_mat [RNumericMatrix example_matrix] [example_matrix]) /\
  (fst (list_to_vec as_mat [RNumericMatrix example_matrix]) = Ok [example_matrix] ->
   length [example_matrix] = length [RNumericMatrix example_matrix] /\
   forall i y, nth_error [example_matrix] i = Some y ->
     exists x, nth_error [RNumericMatrix example_matrix] i = Some x /\ as_mat x = Ok y).
Proof.
  apply (list_to_vec_returns_iff rvalue mat as_mat
           [RNumericMatrix example_matrix] [example_matrix]).
  unfold INT_MAX. simpl. lia.
Defined.

(** X3. Conversion goes through concatenation: when two host lists convert
    to [ys1] and [ys2] and together hold at most INT_MAX elements, the
    concatenated list converts to [ys1 ++ ys2]; when the first list does not
    convert, the concatenated list fails with the same exception. *)
Theorem list_to_vec_app
  (SEXP T2 : Type) (as_T2 : SEXP -> result T2) (l1 l2 : list SEXP) :
  (Z.of_nat (length (l1 ++ l2)) <= INT_MAX)%Z ->
  (forall ys1 ys2,
     fst (list_to_vec as_T2 l1) = Ok ys1 -> fst (list_to_vec as_T2 l2) = Ok ys2 ->
     fst (list_to_vec as_T2 (l1 ++ l2)) = Ok (ys1 ++ ys2)) /\
  (forall e,
     fst (list_to_vec as_T2 l1) = Throw e ->
     fst (list_to_vec as_T2 (l1 ++ l2)) = Throw e).
Proof.
  intros Hlen. rewrite length_app in Hlen.
  rewrite (list_to_vec_bounded SEXP T2 as_T2 l1) by lia.
  rewrite (list_to_vec_bounded SEXP T2 as_T2 l2) by lia.
  rewrite (list_to_vec_bounded SEXP T2 as_T2 (l1 ++ l2)) by (rewrite length_app; lia).
  simpl. rewrite convert_all_app. split.
  - intros ys1 ys2 -> ->. reflexivity.
  - intros e ->. reflexivity.
Qed.

Lemma list_to_vec_app_witness :
  (forall ys1 ys2,
     fst (list_to_vec as_mat [RNumericMatrix example_matrix]) = Ok ys1 ->
     fst (list_to_vec as_mat [RNumericMatrix (Mat 1 1 [0%float])]) = Ok ys2 ->
     fst (list_to_vec as_mat
            ([RNumericMatrix example_matrix] ++ [RNumericMatrix (Mat 1 1 [0%float])]))
     = Ok (ys1 ++ ys2)) /\
  (forall e,
     fst (list_to_vec as_mat [RNumericMatrix example_matrix]) = Throw e ->
     fst (list_to_vec as_mat
            ([RNumericMatrix example_matrix] ++ [RNumericMatrix (Mat 1 1 [0%float])]))
     = Throw e).
Proof.
  apply (list_to_vec_app rvalue mat as_mat
           [RNumericMatrix example_matrix] [RNumericMatrix (Mat 1 1 [0%float])]).
  unfold INT_MAX. simpl. lia.
Defined.

(** X4. [Rcpp::as<hesim::vecmats_3d>], whose element converter
    [Rcpp::as<hesim::vecmats_2d>] is again [list_to_vec], keeps the two outer
    levels of the host value: when the object is a list of at most INT_MAX
    host lists, each of at most INT_MAX elements that all convert under the
    innermost converter [as_T], the result is the list of the converted
    inner lists, in order. *)
Theorem as_vec_nested
  (SEXP T : Type) (as_T : SEXP -> result T) (as_List : SEXP -> result (list SEXP))
  (object : SEXP) (ls : list SEXP) (yss : list (list T)) :
  as_List object = Ok ls ->
  (Z.of_nat (length ls) <= INT_MAX)%Z ->
  Forall2 (fun o ys => exists inner,
             as_List o = Ok inner /\
             (Z.of_nat (length inner) <= INT_MAX)%Z /\
             converts as_T inner ys) ls yss ->
  as_vec (as_vec as_T as_List) as_List object = Ok yss.
Proof.
  intros Hobj Hlen Hall. unfold as_vec at 1. rewrite Hobj.
  rewrite list_to_vec_bounded by exact Hlen. simpl.
  apply convert_all_ok_iff.
  eapply Forall2_impl; [|exact Hall].
  intros o ys (inner & Ho & Hlen' & Hc). unfold as_vec. rewrite Ho.
  rewrite list_to_vec_bounded by exact Hlen'. simpl.
  now apply convert_all_ok_iff.
Qed.

Lemma as_vec_nested_witness :
  as_vecmats_3d
    (RList [RList [RList [RNumericMatrix example_matrix]; RList []]; RList []])
  = Ok [[[example_matrix]; []]; []].
Proof.
  apply (as_vec_nested rvalue vecmats Rcpp_as_vecmats as_Rcpp_List
           (RList [RList [RList [RNumericMatrix example_matrix]; RList []]; RList []])
           [RList [RList [RNumericMatrix example_matrix]; RList []]; RList []]
           [[[example_matrix]; []]; []]).
  - reflexivity.
  - unfold INT_MAX. simpl. lia.
  - constructor.
    + exists [RList [RNumericMatrix example_matrix]; RList []].
      split; [reflexivity|].
      split; [unfold INT_MAX; simpl; lia | repeat constructor].
    + constructor; [|constructor].
      exists []. split; [reflexivity|].
      split; [unfold INT_MAX; simpl; lia | constructor].
Defined.

(** ** NaN in the binary64 specification *)

Lemma SFeqb_refl_false (f : spec_float) : SFeqb f f = false -> f = S754_nan.
Proof.
  unfold SFeqb, SFcompare.
  destruct f as [[|]|[|]| |[|] m e]; try discriminate; try reflexivity;
    rewrite Z.compare_refl; change (Pos.compare_cont Eq m m) with (m ?= m)%positive;
    rewrite Pos.compare_refl; discriminate.
Qed.

Lemma is_nan_Prim2SF (a : float) : is_nan a = true -> Prim2SF a = S754_nan.
Proof.
  unfold is_nan. rewrite eqb_spec. intros H. apply negb_true_iff in H.
  now apply SFeqb_refl_false.
Qed.

Lemma Prim2SF_is_nan (a : float) : Prim2SF a = S754_nan -> is_nan a = true.
Proof. unfold is_nan. rewrite eqb_spec. now intros ->. Qed.

(** ** More on [unique] *)

Section UniqueMore.

Variables (T : Type) (ltb eqb : T -> T -> bool).
Hypothesis Hto : total_order ltb eqb.

Local Abbreviation lt_ := (strictly_ascending ltb).

Lemma strictly_sorted_head_not_in a l :
  StronglySorted lt_ (a :: l) -> ~ In a l.
Proof.
  intros H Hin. apply StronglySorted_inv in H. destruct H as [_ Hall].
  rewrite Forall_forall in Hall. specialize (Hall a Hin).
  unfold strictly_ascending in Hall.
  rewrite (to_irrefl ltb eqb Hto) in Hall. discriminate.
Qed.

(** Two strictly ascending vectors with the same elements are the same
    vector. *)
Lemma strictly_sorted_ext l1 : forall l2,
  StronglySorted lt_ l1 -> StronglySorted lt_ l2 ->
  (forall y, In y l1 <-> In y l2) -> l1 = l2.
Proof.
  induction l1 as [|a l1 IH]; intros [|b l2] H1 H2 Hin.
  - reflexivity.
  - exfalso. apply (proj2 (Hin b)). now left.
  - exfalso. apply (proj1 (Hin a)). now left.
  - pose proof (strictly_sorted_head_not_in _ _ H1) as Ha.
    pose proof (strictly_sorted_head_not_in _ _ H2) as Hb.
    pose proof (StronglySorted_inv H1) as [Hs1 Hall1].
    pose proof (StronglySorted_inv H2) as [Hs2 Hall2].
    rewrite Forall_forall in Hall1, Hall2.
    assert (Hab : a = b).
    { destruct (proj1 (Hin a) (or_introl eq_refl)) as [E|Ea]; [now symmetry|].
      destruct (proj2 (Hin b) (or_introl eq_refl)) as [E|Eb]; [exact E|].
      specialize (Hall1 b Eb). specialize (Hall2 a Ea).
      unfold strictly_ascending in *.
      pose proof (to_trans ltb eqb Hto _ _ _ Hall1 Hall2) as Hcyc.
      rewrite (to_irrefl ltb eqb Hto) in Hcyc. discriminate. }
    subst b. f_equal. apply IH; [exact Hs1|exact Hs2|].
    intros y. split; intros Hy.
    + destruct (proj1 (Hin y) (or_intror Hy)) as [E|Hy']; [|exact Hy'].
      subst y. contradiction.
    + destruct (proj2 (Hin y) (or_intror Hy)) as [E|Hy']; [|exact Hy'].
      subst y. contradiction.
Qed.

Lemma unique_ext v w :
  (forall y, In y v <-> In y w) -> unique ltb eqb v = unique ltb eqb w.
Proof.
  intros H. apply strictly_sorted_ext; try apply (unique_sorted T ltb eqb Hto).
  intros y. rewrite !(unique_in T ltb eqb Hto). apply H.
Qed.

Lemma unique_fixed v :
  StronglySorted lt_ v -> unique ltb eqb v = v.
Proof.
  intros H. apply strictly_sorted_ext;
    [apply (unique_sorted T ltb eqb Hto) | exact H | apply (unique_in T ltb eqb Hto)].
Qed.

(** In a strictly ascending vector every element is the last one or below
    it. *)
Lemma strictly_sorted_last l d : forall e,
  StronglySorted lt_ l -> In e l -> e = last l d \/ lt_ e (last l d).
Proof.
  induction l as [|a l IH]; intros e H Hin; [destruct Hin|].
  pose proof (StronglySorted_inv H) as [Hs Hall].
  destruct l as [|b l]; [destruct Hin as [<-|[]]; now left|].
  change (last (a :: b :: l) d) with (last (b :: l) d).
  destruct Hin as [<-|Hin]; [|now apply IH].
  right. rewrite Forall_forall in Hall.
  destruct (IH b Hs (or_introl eq_refl)) as [E|Hlt].
  - rewrite <- E. apply Hall. now left.
  - unfold strictly_ascending in *.
    apply (to_trans ltb eqb Hto _ b); [apply Hall; now left|exact Hlt].
Qed.

Lemma total_order_swo : strict_weak_order ltb.
Proof.
  split.
  - apply (to_irrefl ltb eqb Hto).
  - apply (to_trans ltb eqb Hto).
  - intros a b c Hac.
    destruct (ltb a b) eqn:Eab; [now left|right].
    destruct (ltb b a) eqn:Eba.
    + exact (to_trans ltb eqb Hto _ _ _ Eba Hac).
    + now rewrite <- (to_total ltb eqb Hto a b Eab Eba).
Qed.

End UniqueMore.

(** X7. The vector [unique] leaves depends only on which elements the
    original vector holds, not on their order or multiplicity: two vectors
    with the same elements are left equal. *)
Theorem unique_depends_on_elements_only
  (T : Type) (ltb eqb : T -> T -> bool) (v w : list T) :
  total_order ltb eqb ->
  (forall y, In y v <-> In y w) ->
  unique ltb eqb v = unique ltb eqb w.
Proof. intros Hto H. now apply (unique_ext T ltb eqb Hto). Qed.

Lemma Z_total_order : total_order Z.ltb Z.eqb.
Proof.
  split; intros.
  - apply Z.ltb_irrefl.
  - apply Z.ltb_lt in H, H0. apply Z.ltb_lt. lia.
  - apply Z.ltb_ge in H, H0. lia.
  - apply Z.eqb_eq.
Qed.

Lemma unique_depends_on_elements_only_witness :
  unique Z.ltb Z.eqb [3; 1; 3]%Z = unique Z.ltb Z.eqb [1; 3; 1; 1]%Z.
Proof.
  apply (unique_depends_on_elements_only Z Z.ltb Z.eqb [3; 1; 3]%Z [1; 3; 1; 1]%Z).
  - exact Z_total_order.
  - intros y. simpl. intuition.
Defined.

(** X8. [unique] is idempotent: calling it on its own result changes
    nothing. *)
Theorem unique_idempotent
  (T : Type) (ltb eqb : T -> T -> bool) (v : list T) :
  total_order ltb eqb ->
  unique ltb eqb (unique ltb eqb v) = unique ltb eqb v.
Proof.
  intros Hto. apply (unique_fixed T ltb eqb Hto).
  apply (unique_sorted T ltb eqb Hto).
Qed.

Lemma unique_idempotent_witness :
  unique Z.ltb Z.eqb (unique Z.ltb Z.eqb [2; 5; 2; 4]%Z) = unique Z.ltb Z.eqb [2; 5; 2; 4]%Z.
Proof.
  apply (unique_idempotent Z Z.ltb Z.eqb [2; 5; 2; 4]%Z). exact Z_total_order.
Defined.

(** X9. [unique] leaves a vector unchanged exactly when the vector is
    already strictly ascending. *)
Theorem unique_unchanged_iff_strictly_ascending
  (T : Type) (ltb eqb : T -> T -> bool) (v : list T) :
  total_order ltb eqb ->
  (unique ltb eqb v = v <-> StronglySorted (strictly_ascending ltb) v).
Proof.
  intros Hto. split.
  - intros <-. apply (unique_sorted T ltb eqb Hto).
  - apply (unique_fixed T ltb eqb Hto).
Qed.

Lemma unique_unchanged_iff_strictly_ascending_witness :
  unique Z.ltb Z.eqb [1; 4; 9]%Z = [1; 4; 9]%Z
  <-> StronglySorted (strictly_ascending Z.ltb) [1; 4; 9]%Z.
Proof.
  apply (unique_unchanged_iff_strictly_ascending Z Z.ltb Z.eqb [1; 4; 9]%Z).
  exact Z_total_order.
Defined.

(** X10. [unique] never lengthens the vector, and it keeps the length
    exactly when the vector holds no element twice. *)
Theorem unique_length
  (T : Type) (ltb eqb : T -> T -> bool) (v : list T) :
  total_order ltb eqb ->
  length (unique ltb eqb v) <= length v /\
  (length (unique ltb eqb v) = length v <-> NoDup v).
Proof.
  intros Hto.
  pose proof (strictly_sorted_NoDup T ltb eqb Hto _ (unique_sorted T ltb eqb Hto v)) as Hnd.
  assert (Hin : incl (unique ltb eqb v) v)
    by (intros y; apply (unique_in T ltb eqb Hto)).
  assert (Hin' : incl v (unique ltb eqb v))
    by (intros y; apply (unique_in T ltb eqb Hto)).
  pose proof (NoDup_incl_length Hnd Hin) as Hle.
  split; [exact Hle|]. split.
  - intros E. apply (NoDup_incl_NoDup Hnd); [lia|exact Hin].
  - intros Hv. pose proof (NoDup_incl_length Hv Hin'). lia.
Qed.

Lemma unique_length_witness :
  length (unique Z.ltb Z.eqb [7; 7; 2]%Z) <= length [7; 7; 2]%Z /\
  (length (unique Z.ltb Z.eqb [7; 7; 2]%Z) = length [7; 7; 2]%Z <-> NoDup [7; 7; 2]%Z).
Proof.
  apply (unique_length Z Z.ltb Z.eqb [7; 7; 2]%Z). exact Z_total_order.
Defined.

(** X11. [max_element_pos] and [unique] agree on the largest element: in a
    non-empty vector of at most 2^31 elements, the element at the position
    [max_element_pos] returns is the last element [unique] leaves. *)
Theorem max_element_is_last_of_unique
  (T : Type) (ltb eqb : T -> T -> bool) (v : list T) (d : T) :
  total_order ltb eqb ->
  v <> [] -> (Z.of_nat (length v) <= INT_MAX + 1)%Z ->
  nth (Z.to_nat (max_element_pos ltb v)) v d = last (unique ltb eqb v) d.
Proof.
  intros Hto Hne Hlen. destruct v as [|a v]; [contradiction|].
  destruct (max_element_inv T ltb (total_order_swo T ltb eqb Hto) d a v) as [Hb _ Hm _].
  unfold max_element_pos.
  rewrite to_int_small by (unfold INT_MAX in *; lia). rewrite Nat2Z.id.
  set (p := max_element ltb (a :: v)) in *.
  set (u := unique ltb eqb (a :: v)).
  assert (Hmu : In (nth p (a :: v) d) u)
    by (apply (unique_in T ltb eqb Hto); now apply nth_In).
  assert (Hu : u <> []) by (intros E; rewrite E in Hmu; destruct Hmu).
  assert (Hlast : In (last u d) (a :: v)).
  { apply (unique_in T ltb eqb Hto). fold u.
    destruct (exists_last Hu) as (u' & t & E). rewrite E, last_last.
    apply in_or_app. right. now left. }
  destruct (In_nth _ _ d Hlast) as (j & Hj & Ej).
  pose proof (Hm j Hj) as Hle. rewrite Ej in Hle.
  destruct (strictly_sorted_last T ltb eqb Hto u d _
              (unique_sorted T ltb eqb Hto (a :: v)) Hmu) as [E|Hlt]; [exact E|].
  unfold strictly_ascending in Hlt. congruence.
Qed.

Lemma max_element_is_last_of_unique_witness :
  nth (Z.to_nat (max_element_pos Z.ltb [3; 8; 8; 1]%Z)) [3; 8; 8; 1]%Z 0%Z
  = last (unique Z.ltb Z.eqb [3; 8; 8; 1]%Z) 0%Z.
Proof.
  apply (max_element_is_last_of_unique Z Z.ltb Z.eqb [3; 8; 8; 1]%Z 0%Z).
  - exact Z_total_order.
  - discriminate.
  - unfold INT_MAX. simpl. lia.
Defined.

(** ** [add_constant] *)

Lemma add_nan (a c : float) :
  is_nan a = true \/ is_nan c = true -> is_nan (a + c)%float = true.
Proof.
  intros H. apply Prim2SF_is_nan. rewrite add_spec.
  destruct H as [H|H]; rewrite (is_nan_Prim2SF _ H); [reflexivity|].
  now destruct (Prim2SF a).
Qed.

(** X12. [add_constant] keeps the length of the vector, and on a vector of
    doubles it never turns a NaN into a number: an element that was a NaN
    is one afterwards, and when [value] is a NaN every element is. *)
Theorem add_constant_keeps_nan (v : list float) (value : float) :
  length (add_constant_double v value) = length v /\
  forall i, i < length v ->
    is_nan (nth i v 0%float) = true \/ is_nan value = true ->
    is_nan (nth i (add_constant_double v value) 0%float) = true.
Proof.
  unfold add_constant_double, add_constant. split; [apply length_map|].
  intros i Hi H.
  rewrite (nth_indep _ 0%float ((fun x => x + value)%float 0%float))
    by (now rewrite length_map).
  rewrite (map_nth (fun x => x + value)%float). now apply add_nan.
Qed.

Example add_constant_double_runs :
  add_constant_double [1; 2.5; neg_infinity]%float 0.5%float
  = [1.5; 3; neg_infinity]%float.
Proof. reflexivity. Qed.
